(** * velox/dwio/common/DataBuffer.h: a shallow embedding of [DataBuffer<T>]

    [DataBuffer<T>] is a growable array of trivially copyable elements that
    sits on a [MemoryPool], or aliases the memory of a [velox::Buffer].

    The embedding follows the header member by member:
    - [uint64_t] values are integers in [Z]; every addition and
      multiplication of the source is written with its wrap-around
      ([wrap64]);
    - a [T*] is a block address plus an element index ([Ptr]); the member
      [buf_] always points at the first element of its block and is kept as
      the block address, [0] standing for [nullptr];
    - the memory is a finite map from block addresses to the elements the
      block holds; an element that was never written is indeterminate
      ([None]);
    - a member function is a computation in the monad [M]: it reads and
      updates the memory and the object ([this]), and ends in [Ok], in
      [Fatal] (a failed [VELOX_CHECK], [VELOX_FAIL]) or in [Undefined]
      (behaviour the C++ standard leaves undefined: an access outside a
      block, a null dereference, overlapping [memcpy]). *)

From stdpp Require Import base numbers list option gmap.

Local Open Scope Z_scope.

(** ** 64-bit unsigned arithmetic *)

Definition two64 : Z := 18446744073709551616.

Definition wrap64 (x : Z) : Z := x mod two64.

Definition u64 (x : Z) : Prop := 0 ≤ x < two64.

(** ** Outcomes of a call *)

Inductive failure : Set :=
  | NullBuffer        (* VELOX_CHECK_NOT_NULL(buf_) *)
  | ReferencedBuffer  (* VELOX_FAIL("Can't reserve on a referenced buffer") *)
  | AllocationFailed  (* VELOX_CHECK(buf_ != nullptr || ...) *)
  | SourceUnderflow   (* VELOX_CHECK_GE(src.size(), srcOffset + items) *)
  | OutOfRange.       (* VELOX_CHECK_LT(i, size_, ...) *)

Inductive outcome (A : Type) : Type :=
  | Ok (a : A)
  | Fatal (e : failure)
  | Undefined.

Arguments Ok {A} a.
Arguments Fatal {A} e.
Arguments Undefined {A}.

(** ** The objects *)

(** Modelled from the spec: [velox::Buffer] (velox/buffer/Buffer.h is not
    among the sources), the "Immutable Shared Buffer" of section 6, which
    provides "a byte pointer, a byte length": what [as<T>()] and [size()]
    return. A [BufferPtr] is a possibly null handle to one. *)
Record Buffer : Set := mkBuffer { buffer_as : Z; buffer_size : Z }.

Definition BufferPtr : Set := option Buffer.

(** The data members of [DataBuffer<T>], in the order of the header. *)
Record DataBuffer : Set := mkDataBuffer {
  pool_ : Z;
  veloxRef_ : BufferPtr;
  buf_ : Z;
  size_ : Z;
  capacity_ : Z
}.

Definition set_buf_ (p : Z) (b : DataBuffer) : DataBuffer :=
  mkDataBuffer (pool_ b) (veloxRef_ b) p (size_ b) (capacity_ b).

Definition set_size_ (n : Z) (b : DataBuffer) : DataBuffer :=
  mkDataBuffer (pool_ b) (veloxRef_ b) (buf_ b) n (capacity_ b).

Definition set_capacity_ (n : Z) (b : DataBuffer) : DataBuffer :=
  mkDataBuffer (pool_ b) (veloxRef_ b) (buf_ b) (size_ b) n.

(** A [T*]: the block it points into and the element index in the block. *)
Record Ptr : Set := mkPtr { base : Z; index : Z }.

(** Modelled from the spec: the calls of the pool interface of section 6, as
    a pool has received them, with what it answered. *)
Inductive PoolCall : Set :=
  | AllocateZeroFilled (pool numEntries sizeEach ret : Z)
  | Allocate (pool bytes ret : Z)
  | Reallocate (pool p oldBytes newBytes ret : Z)
  | Free (pool p bytes : Z).

(** Modelled from the spec: what a pool decides when it is asked for memory
    ("pointer-or-null"; a reallocation "may move data"). *)
Inductive Answer : Set :=
  | Refuse    (* the null pointer *)
  | InPlace   (* reallocate: the block stays where it is *)
  | Move.     (* a block at an address not in use *)

Global Instance failure_eq_dec : EqDecision failure.
Proof. solve_decision. Defined.
Global Instance Buffer_eq_dec : EqDecision Buffer.
Proof. solve_decision. Defined.
Global Instance DataBuffer_eq_dec : EqDecision DataBuffer.
Proof. solve_decision. Defined.
Global Instance PoolCall_eq_dec : EqDecision PoolCall.
Proof. solve_decision. Defined.

(** The element type [T]: its values, the value whose bytes are all zero, and
    [sizeof(T)]. *)
Class Element : Type := {
  T : Type;
  zero : T;
  sizeofT : positive
}.

(** Modelled from the spec: the policy of a [MemoryPool]; given the calls it
    has received so far and the number of bytes asked for, what it answers. *)
Class MemoryPool : Set := {
  oracle : list PoolCall → Z → Answer
}.

Section DataBuffer.

Context `{Element} `{MemoryPool}.

(** An element of a block: [None] while indeterminate. *)
Definition cell : Type := option T.

(** The memory, and the log of the calls the pool has received. *)
Record World : Type := mkWorld {
  mem : gmap Z (list cell);
  calls : list PoolCall
}.

Definition sizeInBytes (items : Z) : Z := wrap64 (Z.pos sizeofT * items).

(** The number of whole elements in a region of [bytes] bytes. *)
Definition cells (bytes : Z) : nat := Z.to_nat (bytes / Z.pos sizeofT).

(** An address that is neither null nor the address of a live block. *)
Definition fresh_addr (m : gmap Z (list cell)) : Z := fresh ({[0]} ∪ dom m).

(** *** The pool *)

(** Modelled from the spec: [MemoryPool] (velox/common/memory/Memory.h is
    not among the sources). Section 6 gives its interface:
    [allocateZeroFilled(elementCount, elementSizeBytes)], [allocate(bytes)],
    [reallocate(oldPtr, oldBytes, newBytes)], each answering a pointer or
    null, and [free(ptr, bytes)]. A granted allocation is a block at an
    address not in use; whether a request is granted, and whether a
    reallocation moves the block, is the pool's decision ([oracle]). *)
Definition allocateZeroFilled (pool numEntries sizeEach : Z) (w : World)
  : outcome (Z * World) :=
  if decide (pool = 0) then Undefined else
  let bytes := wrap64 (numEntries * sizeEach) in
  match oracle (calls w) bytes with
  | Refuse =>
      Ok (0, mkWorld (mem w)
               (AllocateZeroFilled pool numEntries sizeEach 0 :: calls w))
  | _ =>
      let a := fresh_addr (mem w) in
      Ok (a, mkWorld (<[a := replicate (cells bytes) (Some zero)]> (mem w))
               (AllocateZeroFilled pool numEntries sizeEach a :: calls w))
  end.

(** Modelled from the spec: [MemoryPool::allocate]; the block it grants is
    not initialised. *)
Definition allocate (pool bytes : Z) (w : World) : outcome (Z * World) :=
  if decide (pool = 0) then Undefined else
  match oracle (calls w) bytes with
  | Refuse => Ok (0, mkWorld (mem w) (Allocate pool bytes 0 :: calls w))
  | _ =>
      let a := fresh_addr (mem w) in
      Ok (a, mkWorld (<[a := replicate (cells bytes) None]> (mem w))
               (Allocate pool bytes a :: calls w))
  end.

(** Modelled from the spec: the block a reallocation yields; the first
    [min(oldBytes, newBytes)] bytes of the old one survive, the rest is not
    initialised. *)
Definition reallocated (old : list cell) (oldBytes newBytes : Z) : list cell :=
  let kept := take (cells (Z.min oldBytes newBytes)) old in
  kept ++ replicate (cells newBytes - length kept) None.

(** Modelled from the spec: [MemoryPool::reallocate], which "may move data;
    must preserve the first min(oldBytes,newBytes) bytes". When the pool
    refuses, the old block stays as it is. *)
Definition reallocate (pool p oldBytes newBytes : Z) (w : World)
  : outcome (Z * World) :=
  if decide (pool = 0) then Undefined else
  match mem w !! p with
  | None => Undefined
  | Some old =>
      let blk := reallocated old oldBytes newBytes in
      match oracle (calls w) newBytes with
      | Refuse =>
          Ok (0, mkWorld (mem w)
                   (Reallocate pool p oldBytes newBytes 0 :: calls w))
      | InPlace =>
          Ok (p, mkWorld (<[p := blk]> (mem w))
                   (Reallocate pool p oldBytes newBytes p :: calls w))
      | Move =>
          let a := fresh_addr (mem w) in
          Ok (a, mkWorld (<[a := blk]> (delete p (mem w)))
                   (Reallocate pool p oldBytes newBytes a :: calls w))
      end
  end.

(** Modelled from the spec: [MemoryPool::free]; the block is gone. *)
Definition free (pool p bytes : Z) (w : World) : outcome (unit * World) :=
  if decide (pool = 0) then Undefined else
  match mem w !! p with
  | None => Undefined
  | Some _ => Ok (tt, mkWorld (delete p (mem w)) (Free pool p bytes :: calls w))
  end.

(** *** Memory accesses *)

(** The [n] elements from [p] on, when [p] is not null and they all lie in
    a block. *)
Definition mem_read (p : Ptr) (n : nat) (w : World) : option (list cell) :=
  match mem w !! base p with
  | None => None
  | Some blk =>
      if decide (base p ≠ 0 ∧ 0 ≤ index p ∧
                 (Z.to_nat (index p) + n ≤ length blk)%nat)
      then Some (take n (drop (Z.to_nat (index p)) blk))
      else None
  end.

(** Overwrite the elements from [p] on with [cs], when [p] is not null and
    they all lie in a block. *)
Definition mem_write (p : Ptr) (cs : list cell) (w : World) : option World :=
  match mem w !! base p with
  | None => None
  | Some blk =>
      let i := Z.to_nat (index p) in
      if decide (base p ≠ 0 ∧ 0 ≤ index p ∧ (i + length cs ≤ length blk)%nat)
      then Some (mkWorld
                   (<[base p := take i blk ++ cs ++ drop (i + length cs) blk]> (mem w))
                   (calls w))
      else None
  end.

(** Do the [n] elements from [p] and the [n] elements from [q] share one? *)
Definition overlap (p q : Ptr) (n : nat) : Prop :=
  base p = base q ∧ index p < index q + Z.of_nat n ∧ index q < index p + Z.of_nat n.

Global Instance overlap_dec p q n : Decision (overlap p q n).
Proof. unfold overlap. apply _. Defined.

(** [std::memset(p, 0, bytes)]. The memory holds whole elements: the call
    zeroes the [cells bytes] elements from [p] on ([bytes] is a multiple of
    [sizeof(T)] unless [sizeInBytes] has wrapped around). *)
Definition memset0 (p : Ptr) (bytes : Z) (w : World) : outcome (unit * World) :=
  let n := cells bytes in
  if decide (n = 0%nat) then Ok (tt, w) else
  match mem_write p (replicate n (Some zero)) w with
  | Some w' => Ok (tt, w')
  | None => Undefined
  end.

(** [std::memcpy(dst, src, bytes)], likewise on the [cells bytes] whole
    elements; the two ranges must not overlap. *)
Definition memcpy (dst src : Ptr) (bytes : Z) (w : World) : outcome (unit * World) :=
  let n := cells bytes in
  if decide (n = 0%nat) then Ok (tt, w) else
  if decide (overlap dst src n) then Undefined else
  match mem_read src n w with
  | None => Undefined
  | Some cs =>
      match mem_write dst cs w with
      | Some w' => Ok (tt, w')
      | None => Undefined
      end
  end.

(** *** The monad of member functions *)

Record State : Type := mkState { world : World; this : DataBuffer }.

Definition M (A : Type) : Type := State → outcome (A * State).

Global Instance M_ret : MRet M := λ A a s, Ok (a, s).

Global Instance M_bind : MBind M := λ A B f m s,
  match m s with
  | Ok (a, s') => f a s'
  | Fatal e => Fatal e
  | Undefined => Undefined
  end.

Definition get : M DataBuffer := λ s, Ok (this s, s).

Definition modify (f : DataBuffer → DataBuffer) : M unit :=
  λ s, Ok (tt, mkState (world s) (f (this s))).

Definition fail {A} (e : failure) : M A := λ _, Fatal e.

(** A [VELOX_CHECK]. *)
Definition check (P : Prop) `{Decision P} (e : failure) : M unit :=
  if decide P then mret tt else fail e.

(** Run an action on the memory or the pool. *)
Definition lift {A} (f : World → outcome (A * World)) : M A := λ s,
  match f (world s) with
  | Ok (a, w) => Ok (a, mkState w (this s))
  | Fatal e => Fatal e
  | Undefined => Undefined
  end.

(** *** The member functions *)

(** [explicit DataBuffer(MemoryPool& pool, uint64_t size = 0)] *)
Definition construct (pool size : Z) (w : World) : outcome (DataBuffer * World) :=
  match allocateZeroFilled pool 1 (sizeInBytes size) w with
  | Ok (p, w') =>
      if decide (p ≠ 0 ∨ size = 0)
      then Ok (mkDataBuffer pool None p size size, w')
      else Fatal AllocationFailed
  | Fatal e => Fatal e
  | Undefined => Undefined
  end.

(** [DataBuffer(DataBuffer&& other)]: the new object, and [other] as the
    constructor leaves it. *)
Definition move_construct (other : DataBuffer) : DataBuffer * DataBuffer :=
  (mkDataBuffer (pool_ other) (veloxRef_ other) (buf_ other) (size_ other)
     (capacity_ other),
   set_capacity_ 0 (set_size_ 0 (set_buf_ 0 other))).

(** [data()]: a pointer to the first element. *)
Definition data (b : DataBuffer) : Ptr := mkPtr (buf_ b) 0.

(** Pointer arithmetic, [p + n]. *)
Definition ptr_add (p : Ptr) (n : Z) : Ptr := mkPtr (base p) (index p + n).

Definition size (b : DataBuffer) : Z := size_ b.

Definition capacity (b : DataBuffer) : Z := capacity_ b.

Definition capacityInBytes (b : DataBuffer) : Z := sizeInBytes (capacity_ b).

(** The element a pointer designates, read. *)
Definition load (p : Ptr) : M cell := λ s,
  match mem_read p 1 (world s) with
  | Some [c] => Ok (c, s)
  | _ => Undefined
  end.

(** [*p = value]. *)
Definition store (p : Ptr) (value : T) : M unit :=
  lift (λ w, match mem_write p [Some value] w with
             | Some w' => Ok (tt, w')
             | None => Undefined
             end).

(** [operator[](uint64_t i)], read. *)
Definition subscript (i : Z) : M cell :=
  b ← get; load (ptr_add (data b) i).

(** [at(uint64_t i)] *)
Definition at_ (i : Z) : M cell :=
  b ← get;
  check (i < size_ b) OutOfRange;;
  load (ptr_add (data b) i).

(** [reserve(uint64_t capacity)] *)
Definition reserve (capacity : Z) : M unit :=
  b ← get;
  if decide (capacity ≤ capacity_ b) then
    check (buf_ b ≠ 0) NullBuffer
  else
    match veloxRef_ b with
    | Some _ => fail ReferencedBuffer
    | None =>
        let newSize := sizeInBytes capacity in
        p ← (if decide (buf_ b = 0)
             then lift (allocate (pool_ b) newSize)
             else lift (reallocate (pool_ b) (buf_ b) (capacityInBytes b) newSize));
        modify (set_buf_ p);;
        check (p ≠ 0 ∨ newSize = 0) AllocationFailed;;
        modify (set_capacity_ capacity)
    end.

(** [extend(uint64_t size)] *)
Definition extend (size : Z) : M unit :=
  b ← get;
  let newSize := wrap64 (size_ b + size) in
  if decide (capacity_ b < newSize)
  then reserve (wrap64 (newSize + wrap64 (newSize + 1) / 2 + 1))
  else mret tt.

(** [resize(uint64_t size)] *)
Definition resize (size : Z) : M unit :=
  reserve size;;
  b ← get;
  (if decide (size_ b < size)
   then lift (memset0 (ptr_add (data b) (size_ b))
                (sizeInBytes (wrap64 (size - size_ b))))
   else mret tt);;
  modify (set_size_ size).

(** [unsafeAppend(uint64_t offset, const T* src, uint64_t items)] *)
Definition unsafeAppend (offset : Z) (src : Ptr) (items : Z) : M unit :=
  b ← get;
  (if decide (0 < items)
   then lift (memcpy (ptr_add (data b) offset) src (sizeInBytes items))
   else mret tt);;
  modify (set_size_ (wrap64 (offset + items))).

(** [unsafeAppend(const T* src, uint64_t items)] *)
Definition unsafeAppend_end (src : Ptr) (items : Z) : M unit :=
  b ← get;
  if decide (0 < items)
  then lift (memcpy (ptr_add (data b) (size_ b)) src (sizeInBytes items));;
       modify (set_size_ (wrap64 (size_ b + items)))
  else mret tt.

(** [unsafeAppend(T value)] *)
Definition unsafeAppend_value (value : T) : M unit :=
  b ← get;
  store (mkPtr (buf_ b) (size_ b)) value;;
  modify (set_size_ (wrap64 (size_ b + 1))).

(** [append(uint64_t offset, const T* src, uint64_t items)] *)
Definition append_ptr (offset : Z) (src : Ptr) (items : Z) : M unit :=
  reserve (wrap64 (offset + items));;
  unsafeAppend offset src items.

(** [append(uint64_t offset, const DataBuffer<T>& src, uint64_t srcOffset,
    uint64_t items)] *)
Definition append (offset : Z) (src : DataBuffer) (srcOffset items : Z) : M unit :=
  check (wrap64 (srcOffset + items) ≤ size src) SourceUnderflow;;
  append_ptr offset (ptr_add (data src) srcOffset) items.

(** [safeSet(uint64_t offset, T value)] *)
Definition safeSet (offset : Z) (value : T) : M unit :=
  b ← get;
  (if decide (capacity_ b ≤ offset)
   then
     let size :=
       Z.max (wrap64 (offset + 1))
         (wrap64 (capacity_ b + wrap64 (capacity_ b + 1) / 2 + 1)) in
     reserve size
   else mret tt);;
  b ← get;
  store (mkPtr (buf_ b) offset) value;;
  if decide (size_ b ≤ offset)
  then modify (set_size_ (wrap64 (offset + 1)))
  else mret tt.

(** [extendAppend(uint64_t offset, const T* src, uint64_t items)] *)
Definition extendAppend (offset : Z) (src : Ptr) (items : Z) : M unit :=
  b ← get;
  let newSize := wrap64 (offset + items) in
  (if decide (capacity_ b < newSize)
   then reserve (wrap64 (newSize + wrap64 (newSize + 1) / 2 + 1))
   else mret tt);;
  unsafeAppend offset src items.

(** [append(T value)] *)
Definition append_value (value : T) : M unit :=
  b ← get;
  (if decide (capacity_ b ≤ size_ b)
   then reserve (wrap64 (capacity_ b + wrap64 (capacity_ b + 1) / 2 + 1))
   else mret tt);;
  unsafeAppend_value value.

(** [clear()] *)
Definition clear : M unit :=
  b ← get;
  (if decide (veloxRef_ b = None ∧ buf_ b ≠ 0)
   then lift (free (pool_ b) (buf_ b) (sizeInBytes (capacity_ b)))
   else mret tt);;
  modify (set_size_ 0);;
  modify (set_capacity_ 0);;
  modify (set_buf_ 0).

(** [~DataBuffer()]: what is left is the memory and the pool. *)
Definition destroy (b : DataBuffer) (w : World) : outcome World :=
  match clear (mkState w b) with
  | Ok (_, s) => Ok (world s)
  | Fatal e => Fatal e
  | Undefined => Undefined
  end.

(** The private [DataBuffer(const velox::BufferPtr& buffer)], which is what
    [wrap] builds. *)
Definition wrap (buffer : BufferPtr) : outcome DataBuffer :=
  match buffer with
  | None => Undefined
  | Some r =>
      let n := buffer_size r / Z.pos sizeofT in
      Ok (mkDataBuffer 0 buffer (buffer_as r) n n)
  end.

End DataBuffer.

(** ** Vocabulary of the properties *)

(** The growth policy as the specification words it: a requested extent [m]
    becomes [m + floor((m + 1) / 2) + 1]. *)
Definition growth_policy (m : Z) : Z := m + (m + 1) / 2 + 1.

Section Vocabulary.

Context `{Element} `{MemoryPool}.

(** Run a member function on the object [b] in the memory [w]. *)
Definition run {A} (m : M A) (w : World) (b : DataBuffer) : outcome (A * State) :=
  m (mkState w b).

(** The object is in aliasing mode ([veloxRef_] is set) or in owning mode. *)
Definition aliasing (b : DataBuffer) : Prop := veloxRef_ b ≠ None.

Definition owning (b : DataBuffer) : Prop := veloxRef_ b = None.

(** The element at index [i] of the storage of [b], when there is one. *)
Definition element (w : World) (b : DataBuffer) (i : Z) : option cell :=
  match mem_read (ptr_add (data b) i) 1 w with
  | Some [c] => Some c
  | _ => None
  end.

(** The storage of [b] is in place: the pool pointer is set, the data pointer
    is set when the capacity is not 0, and it designates a block of at least
    [capacity] elements. *)
Definition backed (w : World) (b : DataBuffer) : Prop :=
  pool_ b ≠ 0 ∧
  (capacity_ b ≠ 0 → buf_ b ≠ 0) ∧
  (buf_ b ≠ 0 →
   ∃ blk, mem w !! buf_ b = Some blk ∧ capacity_ b ≤ Z.of_nat (length blk)).

(** The pool, asked next for [bytes] bytes, does not answer null. *)
Definition grants (w : World) (bytes : Z) : Prop :=
  oracle (calls w) bytes ≠ Refuse.

(** The pool request [reserve] makes when it has to grow. *)
Definition reserve_request (c : Z) (b : DataBuffer) (w : World) : outcome (Z * World) :=
  if decide (buf_ b = 0)
  then allocate (pool_ b) (sizeInBytes c) w
  else reallocate (pool_ b) (buf_ b) (capacityInBytes b) (sizeInBytes c) w.

(** A further call on the object a construction or a call has left. *)
Definition after (m : M unit) (o : outcome (DataBuffer * World))
  : outcome (DataBuffer * World) :=
  match o with
  | Ok (b, w) =>
      match run m w b with
      | Ok (_, s) => Ok (this s, world s)
      | Fatal e => Fatal e
      | Undefined => Undefined
      end
  | Fatal e => Fatal e
  | Undefined => Undefined
  end.

(** The public member functions that change an object, as calls with
    their arguments. *)
Inductive Op : Type :=
  | OpReserve (capacity : Z)
  | OpExtend (size : Z)
  | OpResize (size : Z)
  | OpAppendBuffer (offset : Z) (src : DataBuffer) (srcOffset items : Z)
  | OpAppendPtr (offset : Z) (src : Ptr) (items : Z)
  | OpSafeSet (offset : Z) (value : T)
  | OpExtendAppend (offset : Z) (src : Ptr) (items : Z)
  | OpAppendValue (value : T)
  | OpClear.

Definition call (op : Op) : M unit :=
  match op with
  | OpReserve c => reserve c
  | OpExtend n => extend n
  | OpResize n => resize n
  | OpAppendBuffer offset src srcOffset items => append offset src srcOffset items
  | OpAppendPtr offset src items => append_ptr offset src items
  | OpSafeSet offset value => safeSet offset value
  | OpExtendAppend offset src items => extendAppend offset src items
  | OpAppendValue value => append_value value
  | OpClear => clear
  end.

(** The [uint64_t] arguments of a call are 64-bit values. *)
Definition args_u64 (op : Op) : Prop :=
  match op with
  | OpReserve n | OpExtend n | OpResize n => u64 n
  | OpAppendBuffer offset _ srcOffset items =>
      u64 offset ∧ u64 srcOffset ∧ u64 items
  | OpAppendPtr offset _ items | OpExtendAppend offset _ items =>
      u64 offset ∧ u64 items
  | OpSafeSet offset _ => u64 offset
  | OpAppendValue _ | OpClear => True
  end.

(** The capacity a call on [b] asks [reserve] for, computed in unbounded
    integers ([0] when the call does not reach [reserve]). *)
Definition extent (b : DataBuffer) (op : Op) : Z :=
  match op with
  | OpReserve n | OpResize n => n
  | OpExtend n =>
      if decide (capacity_ b < size_ b + n)
      then growth_policy (size_ b + n) else 0
  | OpAppendBuffer offset _ _ items | OpAppendPtr offset _ items =>
      offset + items
  | OpSafeSet offset _ =>
      if decide (capacity_ b ≤ offset)
      then Z.max (offset + 1) (growth_policy (capacity_ b)) else 0
  | OpExtendAppend offset _ items =>
      if decide (capacity_ b < offset + items)
      then growth_policy (offset + items) else 0
  | OpAppendValue _ =>
      if decide (capacity_ b ≤ size_ b)
      then growth_policy (capacity_ b) else 0
  | OpClear => 0
  end.

(** No 64-bit wrap-around in the size arithmetic of a call: the byte size
    of the capacity it asks for is below [2^64]. *)
Definition in_range (b : DataBuffer) (op : Op) : Prop :=
  args_u64 op ∧ Z.pos sizeofT * extent b op < two64.

(** The objects that construction, [wrap], moves and calls that return can
    produce, the size arithmetic staying in range. The memory a call runs in
    is arbitrary: other objects may have used it in between. *)
Inductive reachable : DataBuffer → Prop :=
  | reach_construct pool n w b w' :
      u64 n → construct pool n w = Ok (b, w') → reachable b
  | reach_wrap r b :
      buffer_as r ≠ 0 → u64 (buffer_size r) → wrap (Some r) = Ok b →
      reachable b
  | reach_moved_to b :
      reachable b → reachable (move_construct b).1
  | reach_moved_from b :
      reachable b → reachable (move_construct b).2
  | reach_call op w b s' :
      reachable b → in_range b op → run (call op) w b = Ok (tt, s') →
      reachable (this s').

(** The invariants of section 3 as the specification states them. *)
Definition stated_invariant (b : DataBuffer) : Prop :=
  0 ≤ size_ b ≤ capacity_ b ∧ (buf_ b = 0 ↔ capacity_ b = 0).

(** The invariants the checks of the code maintain: the pointer may be not
    null at capacity 0. *)
Definition invariant (b : DataBuffer) : Prop :=
  0 ≤ size_ b ≤ capacity_ b ∧ (capacity_ b ≠ 0 → buf_ b ≠ 0).

End Vocabulary.

(** ** Concrete instances, for the examples *)

(** [int32_t] elements. *)
Definition int32 : Element := {| T := Z; zero := 0; sizeofT := 4 |}.

(** A pool that grants every request, each time with a new block. *)
Definition granting : MemoryPool := {| oracle := λ _ _, Move |}.

(** A memory without any block, and a pool that has not been called. *)
Definition nothing `{Element} : World := mkWorld ∅ [].

(** The address of the pool object in the examples. *)
Definition the_pool : Z := 7.

Section Concrete.

Local Existing Instances int32 granting.

(** [DataBuffer<int32_t> b(pool);] in [nothing]. *)
Definition empty_buffer : DataBuffer := mkDataBuffer the_pool None 1 0 0.

Definition empty_memory : World :=
  mkWorld {[ 1 := [] ]} [AllocateZeroFilled the_pool 1 0 1].

(** [DataBuffer<int32_t> b(pool, 1);] in [nothing]. *)
Definition one_buffer : DataBuffer := mkDataBuffer the_pool None 1 1 1.

Definition one_memory : World :=
  mkWorld {[ 1 := [Some 0] ]} [AllocateZeroFilled the_pool 1 4 1].

(** [DataBuffer<int32_t> b(pool, 3);] in [nothing]. *)
Definition three_buffer : DataBuffer := mkDataBuffer the_pool None 1 3 3.

Definition three_memory : World :=
  mkWorld {[ 1 := [Some 0; Some 0; Some 0] ]}
    [AllocateZeroFilled the_pool 1 12 1].

(** [three_buffer] after [clear()]. *)
Definition cleared_buffer : DataBuffer := mkDataBuffer the_pool None 0 0 0.

Definition cleared_memory : World :=
  mkWorld ∅ [Free the_pool 1 12; AllocateZeroFilled the_pool 1 12 1].

(** A [velox::Buffer] of 12 bytes at the address 50, holding the [int32_t]
    values 7, 8, 9, and the memory that has it. *)
Definition buffer_789 : Buffer := mkBuffer 50 12.

Definition external_789 : World :=
  mkWorld {[ 50 := [Some 7; Some 8; Some 9] ]} [].

(** [DataBuffer<int32_t>::wrap] of [buffer_789]. *)
Definition view_789 : DataBuffer :=
  mkDataBuffer 0 (Some buffer_789) 50 3 3.

(** [DataBuffer<int32_t> b(pool, 2);] in [external_789]. *)
Definition two_buffer : DataBuffer := mkDataBuffer the_pool None 51 2 2.

Definition two_memory : World :=
  mkWorld (<[ 51 := [Some 0; Some 0] ]> {[ 50 := [Some 7; Some 8; Some 9] ]})
    [AllocateZeroFilled the_pool 1 8 51].

(** [empty_buffer] after [safeSet(100, 42)]. *)
Definition set100_buffer : DataBuffer := mkDataBuffer the_pool None 2 101 101.

Definition set100_memory : World :=
  mkWorld {[ 2 := replicate 100 None ++ [Some 42] ]}
    [Reallocate the_pool 1 0 404 2; AllocateZeroFilled the_pool 1 0 1].

End Concrete.

(** ** Further member functions, and callers *)

Section Further.

Context `{Element} `{MemoryPool}.

(** The non-const [operator[](uint64_t i)] as the target of an assignment,
    [b[i] = value]: no bounds check, no change of the length. *)
Definition subscript_set (i : Z) (value : T) : M unit :=
  b ← get; store (ptr_add (data b) i) value.

(** The element [p[i]] a pointer designates, when there is one. *)
Definition pointee (w : World) (p : Ptr) (i : Z) : option cell :=
  match mem_read (ptr_add p i) 1 w with
  | Some [c] => Some c
  | _ => None
  end.

(** A caller's loop, [for (auto v : values) b.append(v);]. *)
Fixpoint append_values (values : list T) : M unit :=
  match values with
  | [] => mret tt
  | v :: rest => append_value v;; append_values rest
  end.

(** A caller's sequence of calls on one object. *)
Fixpoint call_all (ops : list Op) : M unit :=
  match ops with
  | [] => mret tt
  | op :: rest => call op;; call_all rest
  end.

(** A call other than [clear()]. *)
Definition keeps_storage (op : Op) : Prop :=
  match op with
  | OpClear => False
  | _ => True
  end.

End Further.

(** ** Properties *)

Section Properties.

Context `{Element} `{MemoryPool}.

Implicit Types (w : World) (b : DataBuffer) (s : State).

(** *** Arithmetic *)

Lemma wrap64_small x : u64 x → wrap64 x = x.
Proof. unfold u64, wrap64. intros ?. by apply Z.mod_small. Qed.

Lemma wrap64_u64 x : u64 (wrap64 x).
Proof. unfold u64, wrap64, two64. apply Z.mod_pos_bound. lia. Qed.

Lemma growth_policy_gt m : 0 ≤ m → m < growth_policy m.
Proof.
  intros ?. unfold growth_policy.
  assert (0 ≤ (m + 1) / 2) by (apply Z.div_pos; lia). lia.
Qed.

Lemma growth_policy_wrap m :
  0 ≤ m → growth_policy m < two64 →
  wrap64 (m + wrap64 (m + 1) / 2 + 1) = growth_policy m.
Proof.
  intros Hm Hg. pose proof (growth_policy_gt m Hm).
  rewrite (wrap64_small (m + 1)) by (unfold u64; lia).
  apply wrap64_small. unfold u64, growth_policy in *.
  assert (0 ≤ (m + 1) / 2) by (apply Z.div_pos; lia). lia.
Qed.

Lemma sizeInBytes_small n :
  0 ≤ n → Z.pos sizeofT * n < two64 → sizeInBytes n = Z.pos sizeofT * n.
Proof. intros ??. apply wrap64_small. unfold u64. lia. Qed.

Lemma cells_sizeInBytes n :
  0 ≤ n → Z.pos sizeofT * n < two64 → cells (sizeInBytes n) = Z.to_nat n.
Proof.
  intros ??. unfold cells. rewrite sizeInBytes_small by done.
  by rewrite Z.mul_comm, Z.div_mul.
Qed.

Lemma fits_u64 n : 0 ≤ n → Z.pos sizeofT * n < two64 → u64 n.
Proof. unfold u64. intros ??. nia. Qed.

(** *** The monad *)

Lemma bind_Ok {A B} (m : M A) (f : A → M B) s r s' :
  (m ≫= f) s = Ok (r, s') ↔ ∃ a s1, m s = Ok (a, s1) ∧ f a s1 = Ok (r, s').
Proof.
  unfold mbind, M_bind. split.
  - destruct (m s) as [[a s1]| |]; [eauto | done | done].
  - by intros (a & s1 & -> & ?).
Qed.

Lemma bind_Fatal {A B} (m : M A) (f : A → M B) s e :
  m s = Fatal e → (m ≫= f) s = Fatal e.
Proof. unfold mbind, M_bind. by intros ->. Qed.

Lemma bind_step {A B} (m : M A) (f : A → M B) s a s1 :
  m s = Ok (a, s1) → (m ≫= f) s = f a s1.
Proof. unfold mbind, M_bind. by intros ->. Qed.

Lemma get_Ok s : get s = Ok (this s, s).
Proof. done. Qed.

(** Run the leading [b ← get] of a member function. *)
Ltac read_this := rewrite (bind_step _ _ _ _ _ (get_Ok _)); simpl.

Lemma check_true (P : Prop) `{Decision P} e s : P → check P e s = Ok (tt, s).
Proof. intros ?. unfold check. by rewrite decide_True. Qed.

Lemma check_false (P : Prop) `{Decision P} e s : ¬ P → check P e s = Fatal e.
Proof. intros ?. unfold check. by rewrite decide_False. Qed.

Lemma check_Ok (P : Prop) `{Decision P} e s r s' :
  check P e s = Ok (r, s') ↔ P ∧ s' = s.
Proof.
  unfold check. destruct r. case_decide; split.
  - by intros [= ->].
  - by intros [_ ->].
  - done.
  - by intros [? _].
Qed.

Lemma lift_Ok {A} (f : World → outcome (A * World)) s a s' :
  lift f s = Ok (a, s') ↔ ∃ w', f (world s) = Ok (a, w') ∧ s' = mkState w' (this s).
Proof.
  unfold lift. split.
  - destruct (f (world s)) as [[a' w']| |]; [|done..].
    intros [= -> <-]. eauto.
  - by intros (w' & -> & ->).
Qed.

(** *** [reserve] *)

Lemma reserve_noop c w b :
  c ≤ capacity_ b → buf_ b ≠ 0 → run (reserve c) w b = Ok (tt, mkState w b).
Proof.
  intros Hc Hb. unfold run, reserve.
  read_this.
  rewrite decide_True by done. by apply check_true.
Qed.

Lemma reserve_null c w b :
  c ≤ capacity_ b → buf_ b = 0 → run (reserve c) w b = Fatal NullBuffer.
Proof.
  intros Hc Hb. unfold run, reserve.
  read_this.
  rewrite decide_True by done. apply check_false. by intros [].
Qed.

Lemma reserve_referenced c w b :
  capacity_ b < c → aliasing b → run (reserve c) w b = Fatal ReferencedBuffer.
Proof.
  intros Hc Hb. unfold run, reserve.
  read_this.
  rewrite decide_False by lia.
  unfold aliasing in Hb. by destruct (veloxRef_ b).
Qed.

Lemma reserve_Ok c s s' :
  reserve c s = Ok (tt, s') →
  (c ≤ capacity_ (this s) ∧ buf_ (this s) ≠ 0 ∧ s' = s) ∨
  (capacity_ (this s) < c ∧ owning (this s) ∧
   ∃ p w', reserve_request c (this s) (world s) = Ok (p, w') ∧
           (p ≠ 0 ∨ sizeInBytes c = 0) ∧
           s' = mkState w' (set_capacity_ c (set_buf_ p (this s)))).
Proof.
  unfold reserve. rewrite bind_Ok. intros (b & s1 & [= <- <-] & Hr).
  case_decide as Hc.
  - apply check_Ok in Hr as [? ->]. left. by destruct s.
  - right. split; [lia|]. unfold owning.
    destruct (veloxRef_ (this s)) eqn:Href; [done|]. split; [done|].
    apply bind_Ok in Hr as (p & s1 & Hp & Hr).
    apply bind_Ok in Hr as ([] & s2 & [= <-] & Hr).
    apply bind_Ok in Hr as ([] & s3 & Hchk & [= <-]).
    apply check_Ok in Hchk as [Hchk ->].
    unfold reserve_request.
    case_decide; apply lift_Ok in Hp as (w' & Hp & ->); eauto 10.
Qed.

(** C3, as amended. [reserve(targetCapacity)] with
    [targetCapacity <= capacity] returns without calling the pool and
    leaves the memory and every member as they were when [data] is not
    null; when [data] is null (an empty, e.g. freshly cleared, buffer) it
    fails fatally on [VELOX_CHECK_NOT_NULL(buf_)], again without calling the
    pool. *)
Theorem reserve_within_capacity c w b :
  c ≤ capacity_ b →
  (buf_ b ≠ 0 → run (reserve c) w b = Ok (tt, mkState w b)) ∧
  (buf_ b = 0 → run (reserve c) w b = Fatal NullBuffer).
Proof. intros Hc. split; intros Hb; [by apply reserve_noop | by apply reserve_null]. Qed.

(** *** Growth paths on a buffer in aliasing mode *)

Lemma resize_referenced n w b :
  capacity_ b < n → aliasing b → run (resize n) w b = Fatal ReferencedBuffer.
Proof.
  intros. unfold run, resize. apply bind_Fatal. by apply reserve_referenced.
Qed.

Lemma append_ptr_referenced offset src items w b :
  capacity_ b < wrap64 (offset + items) → aliasing b →
  run (append_ptr offset src items) w b = Fatal ReferencedBuffer.
Proof.
  intros. unfold run, append_ptr. apply bind_Fatal. by apply reserve_referenced.
Qed.

Lemma extend_referenced n w b :
  capacity_ b < wrap64 (size_ b + n) →
  growth_policy (wrap64 (size_ b + n)) < two64 → aliasing b →
  run (extend n) w b = Fatal ReferencedBuffer.
Proof.
  intros Hm Hg Hb. unfold run, extend.
  read_this.
  rewrite decide_True by done.
  pose proof (wrap64_u64 (size_ b + n)) as [? _].
  rewrite growth_policy_wrap by done.
  apply reserve_referenced; [|done].
  pose proof (growth_policy_gt (wrap64 (size_ b + n))). lia.
Qed.

Lemma extendAppend_referenced offset src items w b :
  capacity_ b < wrap64 (offset + items) →
  growth_policy (wrap64 (offset + items)) < two64 → aliasing b →
  run (extendAppend offset src items) w b = Fatal ReferencedBuffer.
Proof.
  intros Hm Hg Hb. unfold run, extendAppend.
  read_this.
  rewrite decide_True by done.
  pose proof (wrap64_u64 (offset + items)) as [? _].
  rewrite growth_policy_wrap by done.
  apply bind_Fatal. apply reserve_referenced; [|done].
  pose proof (growth_policy_gt (wrap64 (offset + items))). lia.
Qed.

Lemma append_value_referenced v w b :
  0 ≤ capacity_ b ≤ size_ b → growth_policy (capacity_ b) < two64 →
  aliasing b → run (append_value v) w b = Fatal ReferencedBuffer.
Proof.
  intros [Hc Hm] Hg Hb. unfold run, append_value.
  read_this.
  rewrite decide_True by done.
  rewrite growth_policy_wrap by done.
  apply bind_Fatal. apply reserve_referenced; [|done].
  pose proof (growth_policy_gt (capacity_ b)). lia.
Qed.

Lemma safeSet_referenced offset v w b :
  capacity_ b ≤ offset → 0 ≤ offset → offset + 1 < two64 →
  aliasing b → run (safeSet offset v) w b = Fatal ReferencedBuffer.
Proof.
  intros Hc Ho Hw Hb. unfold run, safeSet.
  read_this.
  rewrite decide_True by done.
  apply bind_Fatal. apply reserve_referenced; [|done].
  rewrite (wrap64_small (offset + 1)) by (unfold u64; lia). lia.
Qed.

(** C4, as amended. On a buffer in aliasing mode, [reserve] with a target
    greater than the capacity fails fatally ("Can't reserve on a referenced
    buffer"), called directly or reached through a growth path ([resize],
    the pointer form of [append], [extend], [extendAppend], [append(value)],
    [safeSet]) whose target exceeds the capacity; [reserve] with a target
    within the capacity returns normally and changes nothing (when [data]
    is not null). *)
Theorem reserve_on_aliasing_buffer w b :
  aliasing b →
  (∀ c, capacity_ b < c → run (reserve c) w b = Fatal ReferencedBuffer) ∧
  (∀ c, c ≤ capacity_ b → buf_ b ≠ 0 →
        run (reserve c) w b = Ok (tt, mkState w b)) ∧
  (∀ n, capacity_ b < n → run (resize n) w b = Fatal ReferencedBuffer) ∧
  (∀ offset src items, capacity_ b < wrap64 (offset + items) →
        run (append_ptr offset src items) w b = Fatal ReferencedBuffer) ∧
  (∀ n, capacity_ b < wrap64 (size_ b + n) →
        growth_policy (wrap64 (size_ b + n)) < two64 →
        run (extend n) w b = Fatal ReferencedBuffer) ∧
  (∀ offset src items, capacity_ b < wrap64 (offset + items) →
        growth_policy (wrap64 (offset + items)) < two64 →
        run (extendAppend offset src items) w b = Fatal ReferencedBuffer) ∧
  (∀ v, 0 ≤ capacity_ b ≤ size_ b → growth_policy (capacity_ b) < two64 →
        run (append_value v) w b = Fatal ReferencedBuffer) ∧
  (∀ offset v, capacity_ b ≤ offset → 0 ≤ offset → offset + 1 < two64 →
        run (safeSet offset v) w b = Fatal ReferencedBuffer).
Proof.
  intros Hb. repeat split; intros.
  - by apply reserve_referenced.
  - by apply reserve_noop.
  - by apply resize_referenced.
  - by apply append_ptr_referenced.
  - by apply extend_referenced.
  - by apply extendAppend_referenced.
  - by apply append_value_referenced.
  - by apply safeSet_referenced.
Qed.

(** *** The memory *)

Lemma fresh_addr_spec (m : gmap Z (list cell)) :
  fresh_addr m ≠ 0 ∧ m !! fresh_addr m = None.
Proof.
  unfold fresh_addr. pose proof (is_fresh ({[0]} ∪ dom m)) as Hf.
  split.
  - intros Heq. apply Hf. rewrite Heq. set_solver.
  - apply not_elem_of_dom. set_solver.
Qed.

Lemma cells_mono x y : x ≤ y → (cells x ≤ cells y)%nat.
Proof.
  intros ?. unfold cells.
  assert (x / Z.pos sizeofT ≤ y / Z.pos sizeofT) by (apply Z.div_le_mono; lia).
  lia.
Qed.

Lemma cells_bound x : u64 x → Z.of_nat (cells x) < two64.
Proof.
  intros [??]. unfold cells. rewrite Z2Nat.id by (apply Z.div_pos; lia).
  assert (x / Z.pos sizeofT ≤ x); [|lia].
  apply Z.div_le_upper_bound; nia.
Qed.

Lemma length_reallocated old ob nb :
  length (reallocated old ob nb) = cells nb.
Proof.
  unfold reallocated. rewrite length_app, length_replicate, length_take.
  pose proof (cells_mono (Z.min ob nb) nb). lia.
Qed.

Lemma lookup_reallocated old ob nb i x :
  old !! i = Some x → (i < cells (Z.min ob nb))%nat →
  reallocated old ob nb !! i = Some x.
Proof.
  intros Hx Hi. unfold reallocated.
  pose proof (lookup_lt_Some _ _ _ Hx).
  rewrite lookup_app_l by (rewrite length_take; lia).
  by rewrite lookup_take_lt.
Qed.

Lemma element_Some w b i x :
  element w b i = Some x ↔
  buf_ b ≠ 0 ∧ 0 ≤ i ∧
  ∃ blk, mem w !! buf_ b = Some blk ∧ blk !! Z.to_nat i = Some x.
Proof.
  unfold element, mem_read, ptr_add, data. simpl. rewrite Z.add_0_l.
  destruct (mem w !! buf_ b) as [blk|] eqn:Hblk.
  - case_decide as Hd.
    + destruct Hd as (? & ? & Hlen).
      destruct (drop (Z.to_nat i) blk) as [|c tl] eqn:Hdrop.
      { apply (f_equal length) in Hdrop. rewrite length_drop in Hdrop.
        simpl in Hdrop. lia. }
      assert (blk !! Z.to_nat i = Some c) as Hc.
      { rewrite <- (Nat.add_0_r (Z.to_nat i)), <- lookup_drop. by rewrite Hdrop. }
      simpl. rewrite ?take_0. split.
      * intros [= <-]. eauto.
      * intros (_ & _ & blk' & [= <-] & Hx). congruence.
    + split; [done|]. intros (? & ? & blk' & [= <-] & Hx).
      apply lookup_lt_Some in Hx. destruct Hd. repeat split; [done|lia|lia].
  - split; [done|]. by intros (_ & _ & blk' & ? & _).
Qed.

(** What a granted request of [reserve] does to the memory: the block of
    the object holds [cells] of the new byte size, the elements within the
    old and the new byte size survive, and every other live block is
    untouched. *)
Lemma reserve_request_Ok c b w p w' :
  reserve_request c b w = Ok (p, w') → p ≠ 0 →
  (∃ blk, mem w' !! p = Some blk ∧ length blk = cells (sizeInBytes c) ∧
     ∀ old i x, buf_ b ≠ 0 → mem w !! buf_ b = Some old → old !! i = Some x →
       (i < cells (Z.min (capacityInBytes b) (sizeInBytes c)))%nat →
       blk !! i = Some x) ∧
  (∀ q, q ≠ buf_ b → is_Some (mem w !! q) → q ≠ p ∧ mem w' !! q = mem w !! q).
Proof.
  unfold reserve_request. intros Hr Hp.
  destruct (fresh_addr_spec (mem w)) as [Hf0 Hf].
  case_decide as Hb.
  - unfold allocate in Hr. case_decide; [done|].
    destruct (oracle _ _); simplify_eq; simpl.
    all: split;
      [ eexists; split; [apply lookup_insert_eq|];
        split; [by rewrite length_replicate | by intros]
      | intros q _ [y Hq];
        assert (q ≠ fresh_addr (mem w)) by congruence;
        split; [done | by rewrite lookup_insert_ne] ].
  - unfold reallocate in Hr. case_decide; [done|].
    destruct (mem w !! buf_ b) as [old|] eqn:Hold; [|done].
    destruct (oracle _ _); simplify_eq; simpl.
    + split.
      * eexists. split; [apply lookup_insert_eq|].
        split; [apply length_reallocated|].
        intros old' i x _ [= <-] Hx Hi. by apply lookup_reallocated.
      * intros q Hq _. split; [done | by rewrite lookup_insert_ne].
    + split.
      * eexists. split; [apply lookup_insert_eq|].
        split; [apply length_reallocated|].
        intros old' i x _ [= <-] Hx Hi. by apply lookup_reallocated.
      * intros q Hq [y Hy].
        assert (q ≠ fresh_addr (mem w)) by congruence.
        split; [done|]. rewrite lookup_insert_ne by done.
        by rewrite lookup_delete_ne.
Qed.

Lemma lookup_splice (blk cs : list cell) (i j : nat) :
  (i + length cs ≤ length blk)%nat →
  (take i blk ++ cs ++ drop (i + length cs) blk) !! j =
  if decide (j < i)%nat then blk !! j
  else if decide (j < i + length cs)%nat then cs !! (j - i)%nat
  else blk !! j.
Proof.
  intros Hlen. case_decide as Hi.
  - rewrite lookup_app_l by (rewrite length_take; lia).
    by rewrite lookup_take_lt.
  - rewrite lookup_app_r by (rewrite length_take; lia).
    rewrite length_take. replace (i `min` length blk)%nat with i by lia.
    case_decide as Hj.
    + by rewrite lookup_app_l by lia.
    + rewrite lookup_app_r by lia. rewrite lookup_drop. f_equal. lia.
Qed.

Lemma mem_write_Some p cs w w' :
  mem_write p cs w = Some w' →
  base p ≠ 0 ∧ 0 ≤ index p ∧ calls w' = calls w ∧
  ∃ blk, mem w !! base p = Some blk ∧
    (Z.to_nat (index p) + length cs ≤ length blk)%nat ∧
    mem w' = <[base p := take (Z.to_nat (index p)) blk ++ cs ++
                          drop (Z.to_nat (index p) + length cs) blk]> (mem w).
Proof.
  unfold mem_write. destruct (mem w !! base p) as [blk|]; [|done].
  case_decide as Hd; [|done]. intros [= <-]. simpl.
  destruct Hd as (? & ? & ?). eauto 10.
Qed.

Lemma mem_read_Some p n w cs :
  mem_read p n w = Some cs →
  base p ≠ 0 ∧ 0 ≤ index p ∧
  ∃ blk, mem w !! base p = Some blk ∧
    (Z.to_nat (index p) + n ≤ length blk)%nat ∧
    cs = take n (drop (Z.to_nat (index p)) blk).
Proof.
  unfold mem_read. destruct (mem w !! base p) as [blk|]; [|done].
  case_decide as Hd; [|done]. intros [= <-].
  destruct Hd as (? & ? & ?). eauto 10.
Qed.

(** The members [reserve] leaves alone, and the capacity it leaves. *)
Lemma reserve_fields c s s' :
  reserve c s = Ok (tt, s') →
  pool_ (this s') = pool_ (this s) ∧
  veloxRef_ (this s') = veloxRef_ (this s) ∧
  size_ (this s') = size_ (this s) ∧
  capacity_ (this s') = Z.max (capacity_ (this s)) c.
Proof.
  intros Hr. apply reserve_Ok in Hr as [(? & ? & ->)|(? & ? & p & w' & _ & _ & ->)].
  - repeat split. lia.
  - simpl. repeat split. lia.
Qed.

(** [reserve] that has to grow, when the byte size of the new capacity is
    computed without wrap-around. *)
Lemma reserve_grow c s s' :
  reserve c s = Ok (tt, s') →
  0 ≤ capacity_ (this s) < c → Z.pos sizeofT * c < two64 →
  owning (this s) ∧
  buf_ (this s') ≠ 0 ∧
  (∃ blk, mem (world s') !! buf_ (this s') = Some blk ∧
     length blk = Z.to_nat c ∧
     ∀ i x, 0 ≤ i < capacity_ (this s) →
       element (world s) (this s) i = Some x → blk !! Z.to_nat i = Some x) ∧
  (∀ q, q ≠ buf_ (this s) → is_Some (mem (world s) !! q) →
     q ≠ buf_ (this s') ∧ mem (world s') !! q = mem (world s) !! q).
Proof.
  intros Hr [Hc0 Hc] Hfit.
  apply reserve_Ok in Hr as [(? & _)|(_ & Hown & p & w' & Hreq & Hp & ->)]; [lia|].
  assert (sizeInBytes c = Z.pos sizeofT * c) as Hbytes
    by (apply sizeInBytes_small; lia).
  assert (p ≠ 0) as Hp0 by (destruct Hp as [|Hz]; [done | nia]).
  destruct (reserve_request_Ok _ _ _ _ _ Hreq Hp0) as [(blk & Hblk & Hlen & Hkeep) Hframe].
  simpl. split; [done|]. split; [done|]. split; [|done].
  exists blk. split; [done|]. split.
  { rewrite Hlen. apply cells_sizeInBytes; lia. }
  intros i x Hi Hx. apply element_Some in Hx as (Hb & _ & old & Hold & Hx).
  apply (Hkeep old); [done..|].
  unfold capacityInBytes. rewrite Hbytes.
  rewrite (sizeInBytes_small (capacity_ (this s))) by nia.
  rewrite Z.min_l by nia. unfold cells.
  rewrite Z.mul_comm, Z.div_mul by lia. lia.
Qed.

(** *** [extend] *)

Lemma extend_Ok n s s' :
  extend n s = Ok (tt, s') →
  let m := wrap64 (size_ (this s) + n) in
  (m ≤ capacity_ (this s) ∧ s' = s) ∨
  (capacity_ (this s) < m ∧
   reserve (wrap64 (m + wrap64 (m + 1) / 2 + 1)) s = Ok (tt, s')).
Proof.
  unfold extend. rewrite bind_Ok. intros (b & s1 & [= <- <-] & Hr).
  simpl. case_decide.
  - by right.
  - left. split; [lia|]. by injection Hr.
Qed.

(** What [extend] leaves when it returns. *)
Lemma extend_post n w b s' :
  u64 n → 0 ≤ size_ b ≤ capacity_ b → u64 (capacity_ b) →
  (capacity_ b < size_ b + n →
   Z.pos sizeofT * growth_policy (size_ b + n) < two64) →
  run (extend n) w b = Ok (tt, s') →
  size_ (this s') = size_ b ∧
  pool_ (this s') = pool_ b ∧
  veloxRef_ (this s') = veloxRef_ b ∧
  (∀ i x, 0 ≤ i < size_ b → element w b i = Some x →
          element (world s') (this s') i = Some x) ∧
  (size_ b + n ≤ capacity_ b → s' = mkState w b) ∧
  (capacity_ b < size_ b + n →
   capacity_ (this s') = growth_policy (size_ b + n) ∧
   capacity_ b < capacity_ (this s')).
Proof.
  intros [Hn0 Hn] [Hs0 Hs] [Hc0 Hc] Hfit Hrun.
  apply extend_Ok in Hrun. simpl in Hrun.
  destruct (decide (capacity_ b < size_ b + n)) as [Hgrow|Hstay].
  - specialize (Hfit Hgrow).
    pose proof (growth_policy_gt (size_ b + n)) as Hgt.
    assert (growth_policy (size_ b + n) < two64) as Hg by nia.
    rewrite (wrap64_small (size_ b + n)) in Hrun by (unfold u64; lia).
    rewrite growth_policy_wrap in Hrun by lia.
    destruct Hrun as [[? _]|[_ Hr]]; [lia|].
    destruct (reserve_fields _ _ _ Hr) as (Hpool & Href & Hsize & Hcap).
    destruct (reserve_grow _ _ _ Hr) as (_ & Hbuf & (blk & Hblk & Hlen & Hkeep) & _);
      [simpl; lia | done |].
    simpl in *. repeat split; try done; try lia.
    intros i x Hi Hx. apply element_Some.
    split; [done|]. split; [lia|]. exists blk. split; [done|].
    apply Hkeep; [lia | done].
  - assert (wrap64 (size_ b + n) = size_ b + n) as Hw
      by (apply wrap64_small; unfold u64; lia).
    rewrite Hw in Hrun. destruct Hrun as [[_ ->]|[? _]]; [|lia].
    simpl. repeat split; try done; lia.
Qed.

(** *** Elements across [reserve] and across writes *)

Lemma reserve_keeps c s s' :
  reserve c s = Ok (tt, s') →
  0 ≤ capacity_ (this s) →
  (capacity_ (this s) < c → Z.pos sizeofT * c < two64) →
  ∀ i x, 0 ≤ i < capacity_ (this s) →
    element (world s) (this s) i = Some x →
    element (world s') (this s') i = Some x.
Proof.
  intros Hr Hc0 Hfit i x Hi Hx.
  destruct (decide (capacity_ (this s) < c)) as [Hgrow|Hstay].
  - destruct (reserve_grow _ _ _ Hr) as (_ & Hbuf & (blk & Hblk & _ & Hkeep) & _);
      [lia | auto |].
    apply element_Some. split; [done|]. split; [lia|]. eauto.
  - apply reserve_Ok in Hr as [(_ & _ & ->)|(? & _)]; [done | lia].
Qed.

Lemma element_eq w b i :
  element w b i =
  if decide (buf_ b ≠ 0 ∧ 0 ≤ i)
  then mem w !! buf_ b ≫= (.!! Z.to_nat i) else None.
Proof.
  apply option_eq. intros x. rewrite element_Some. case_decide as Hd.
  - destruct Hd. rewrite bind_Some. split.
    + intros (_ & _ & blk & ? & ?). eauto.
    + intros (blk & ? & ?). eauto.
  - split; [|done]. intros (? & ? & _). by destruct Hd.
Qed.

Lemma element_write_in w w' b k cs i :
  mem_write (mkPtr (buf_ b) k) cs w = Some w' →
  k ≤ i < k + Z.of_nat (length cs) →
  element w' b i = cs !! Z.to_nat (i - k).
Proof.
  intros Hw Hi.
  apply mem_write_Some in Hw as (Hb & Hk & _ & blk & Hblk & Hlen & Hmem).
  simpl in *. rewrite element_eq, decide_True by (split; [done | lia]).
  rewrite Hmem, lookup_insert_eq. simpl.
  rewrite lookup_splice by done.
  rewrite decide_False by lia. rewrite decide_True by lia.
  f_equal. lia.
Qed.

Lemma element_write_out w w' p cs b i :
  mem_write p cs w = Some w' →
  buf_ b ≠ base p ∨ i < index p ∨ index p + Z.of_nat (length cs) ≤ i →
  element w' b i = element w b i.
Proof.
  intros Hw Hi.
  apply mem_write_Some in Hw as (Hb & Hk & _ & blk & Hblk & Hlen & Hmem).
  rewrite !element_eq. case_decide as Hd; [|done]. destruct Hd as [? ?].
  rewrite Hmem. destruct (decide (buf_ b = base p)) as [Heq|Hne].
  - rewrite Heq, lookup_insert_eq, Hblk. simpl.
    rewrite lookup_splice by done.
    destruct Hi as [?|[?|?]]; [done|..].
    + by rewrite decide_True by lia.
    + rewrite decide_False by lia. by rewrite decide_False by lia.
  - by rewrite lookup_insert_ne.
Qed.

(** *** [resize] *)

Lemma memset0_Ok p bytes w w' :
  memset0 p bytes w = Ok (tt, w') →
  (cells bytes = 0%nat ∧ w' = w) ∨
  (cells bytes ≠ 0%nat ∧
   mem_write p (replicate (cells bytes) (Some zero)) w = Some w').
Proof.
  unfold memset0. case_decide.
  - intros [= <-]. by left.
  - destruct (mem_write _ _ _) eqn:Hw; [|done]. intros [= <-]. by right.
Qed.

Lemma resize_Ok n s s' :
  resize n s = Ok (tt, s') →
  ∃ s1, reserve n s = Ok (tt, s1) ∧
    ((size_ (this s1) < n ∧
      ∃ w2, memset0 (ptr_add (data (this s1)) (size_ (this s1)))
              (sizeInBytes (wrap64 (n - size_ (this s1)))) (world s1)
            = Ok (tt, w2) ∧
            s' = mkState w2 (set_size_ n (this s1))) ∨
     (n ≤ size_ (this s1) ∧ s' = mkState (world s1) (set_size_ n (this s1)))).
Proof.
  unfold resize. rewrite bind_Ok. intros ([] & s1 & Hres & Hr).
  exists s1. split; [done|].
  apply bind_Ok in Hr as (b & s2 & [= <- <-] & Hr).
  apply bind_Ok in Hr as ([] & s3 & Hset & [= <-]).
  case_decide.
  - left. split; [done|].
    apply lift_Ok in Hset as (w2 & Hset & ->). eauto.
  - right. split; [lia|]. by injection Hset as <-.
Qed.

(** What [resize] leaves when it returns. *)
Lemma resize_post n w b s' :
  u64 n → Z.pos sizeofT * n < two64 → 0 ≤ size_ b ≤ capacity_ b →
  run (resize n) w b = Ok (tt, s') →
  n ≤ capacity_ (this s') ∧
  size_ (this s') = n ∧
  (∀ i, size_ b ≤ i < n →
        element (world s') (this s') i = Some (Some zero)) ∧
  (∀ i x, 0 ≤ i < capacity_ b → ¬ (size_ b ≤ i < n) →
          element w b i = Some x →
          element (world s') (this s') i = Some x) ∧
  (n ≤ size_ b →
   capacity_ (this s') = capacity_ b ∧ buf_ (this s') = buf_ b ∧ world s' = w).
Proof.
  intros [Hn0 Hn] Hfit [Hs0 Hs] Hrun.
  apply resize_Ok in Hrun as (s1 & Hres & Hrest).
  destruct (reserve_fields _ _ _ Hres) as (_ & _ & Hsize & Hcap).
  pose proof (reserve_keeps _ _ _ Hres) as Hkeep.
  simpl in *. rewrite Hsize in Hrest.
  destruct Hrest as [(Hlt & w2 & Hset & ->)|(Hge & ->)]; simpl.
  - split; [lia|]. split; [done|].
    apply memset0_Ok in Hset.
    rewrite (wrap64_small (n - size_ b)) in Hset by (unfold u64; lia).
    rewrite cells_sizeInBytes in Hset by nia.
    destruct Hset as [[? _]|[_ Hw]]; [lia|].
    unfold ptr_add, data in Hw. simpl in Hw. rewrite Z.add_0_l in Hw.
    split; [|split; [|lia]].
    + intros i Hi.
      rewrite (element_write_in _ _ (set_size_ n (this s1)) _ _ _ Hw)
        by (rewrite length_replicate; lia).
      rewrite lookup_replicate_2; [done | lia].
    + intros i x Hi Hout Hx.
      rewrite (element_write_out _ _ _ _ (set_size_ n (this s1)) i Hw)
        by (simpl; rewrite length_replicate; lia).
      rewrite element_eq. simpl. rewrite <- element_eq.
      apply Hkeep; [lia | intros; lia | lia | done].
  - split; [lia|]. split; [done|]. split; [intros; lia|].
    assert (s1 = mkState w b) as ->.
    { apply reserve_Ok in Hres as [(_ & _ & ->)|(? & _)]; [done | simpl in *; lia]. }
    simpl. split; [|done].
    intros i x Hi Hout Hx. by rewrite element_eq in *.
Qed.

(** *** [safeSet] *)

Lemma element_buf w b1 b2 i :
  buf_ b1 = buf_ b2 → element w b1 i = element w b2 i.
Proof. intros Hb. by rewrite !element_eq, Hb. Qed.

Lemma at_element i s c :
  element (world s) (this s) i = Some c → i < size_ (this s) →
  at_ i s = Ok (c, s).
Proof.
  intros Hc Hi. unfold at_.
  rewrite (bind_step _ _ _ _ _ (get_Ok _)).
  rewrite (bind_step _ _ _ _ _ (check_true _ _ _ Hi)).
  unfold load. unfold element in Hc.
  destruct (mem_read _ _ _) as [[|c' [|??]]|]; by simplify_eq.
Qed.

Lemma store_Ok p v s s' :
  store p v s = Ok (tt, s') →
  ∃ w', mem_write p [Some v] (world s) = Some w' ∧ s' = mkState w' (this s).
Proof.
  unfold store. rewrite lift_Ok. intros (w' & Hw & ->).
  destruct (mem_write _ _ _); [|done]. injection Hw as <-. eauto.
Qed.

Lemma safeSet_Ok offset v s s' :
  safeSet offset v s = Ok (tt, s') →
  ∃ s1 w2,
    ((capacity_ (this s) ≤ offset ∧
      reserve (Z.max (wrap64 (offset + 1))
                 (wrap64 (capacity_ (this s) +
                          wrap64 (capacity_ (this s) + 1) / 2 + 1))) s
      = Ok (tt, s1)) ∨
     (offset < capacity_ (this s) ∧ s1 = s)) ∧
    mem_write (mkPtr (buf_ (this s1)) offset) [Some v] (world s1) = Some w2 ∧
    s' = mkState w2 (if decide (size_ (this s1) ≤ offset)
                     then set_size_ (wrap64 (offset + 1)) (this s1)
                     else this s1).
Proof.
  unfold safeSet. rewrite bind_Ok. intros (b & s0 & [= <- <-] & Hr).
  apply bind_Ok in Hr as ([] & s1 & Hres & Hr).
  apply bind_Ok in Hr as (b1 & s2 & [= <- <-] & Hr).
  apply bind_Ok in Hr as ([] & s3 & Hst & Hr).
  apply store_Ok in Hst as (w2 & Hw & ->).
  exists s1, w2. split; [|split; [done|]].
  - destruct (decide (capacity_ (this s) ≤ offset)).
    + left. by split.
    + right. split; [lia|]. by injection Hres.
  - simpl in Hr.
    destruct (decide (size_ (this s1) ≤ offset)); by injection Hr.
Qed.

(** What [safeSet] leaves when it returns. *)
Lemma safeSet_post offset v w b s' :
  u64 offset → u64 (capacity_ b) → growth_policy (capacity_ b) < two64 →
  run (safeSet offset v) w b = Ok (tt, s') →
  at_ offset s' = Ok (Some v, s') ∧
  (capacity_ b ≤ offset →
   capacity (this s') = Z.max (offset + 1) (growth_policy (capacity_ b))) ∧
  (offset < capacity_ b → capacity (this s') = capacity_ b) ∧
  (size_ b ≤ offset → size (this s') = offset + 1) ∧
  (offset < size_ b → size (this s') = size_ b) ∧
  (size_ b = 0 → offset = 100 →
   size (this s') = 101 ∧ at_ 100 s' = Ok (Some v, s') ∧
   101 ≤ capacity (this s')).
Proof.
  intros [Ho0 Ho] [Hc0 Hc] Hg Hrun. unfold capacity, size.
  apply safeSet_Ok in Hrun as (s1 & w2 & Hres & Hw & ->). simpl in *.
  rewrite growth_policy_wrap in Hres by done.
  pose proof (growth_policy_gt (capacity_ b) Hc0) as Hgt.
  assert (offset + 1 < two64 ∧ size_ (this s1) = size_ b ∧
          capacity_ (this s1) =
            if decide (capacity_ b ≤ offset)
            then Z.max (offset + 1) (growth_policy (capacity_ b))
            else capacity_ b) as (Ho1 & Hsize & Hcap).
  { destruct Hres as [[Hge Hr]|[Hlt ->]].
    - destruct (reserve_fields _ _ _ Hr) as (_ & _ & Hsz & Hcp). simpl in *.
      apply reserve_Ok in Hr as [(? & _)|(_ & _ & p & w' & Hreq & _ & ->)];
        [simpl in *; lia|].
      simpl in *.
      apply mem_write_Some in Hw as (Hp & _ & _ & blk & Hblk & Hlen & _).
      simpl in *.
      destruct (reserve_request_Ok _ _ _ _ _ Hreq Hp) as [(blk' & Hblk' & Hlen' & _) _].
      assert (blk' = blk) as -> by congruence.
      pose proof (cells_bound (sizeInBytes
        (Z.max (wrap64 (offset + 1)) (growth_policy (capacity_ b))))
        (wrap64_u64 _)) as Hbound.
      assert (offset + 1 < two64) by lia.
      rewrite (wrap64_small (offset + 1)) by (unfold u64; lia).
      by rewrite decide_True by done.
    - simpl. rewrite decide_False by lia. split; [lia|]. done. }
  assert (wrap64 (offset + 1) = offset + 1) as Hwrap
    by (apply wrap64_small; unfold u64; lia).
  set (b' := if decide (size_ (this s1) ≤ offset)
             then set_size_ (wrap64 (offset + 1)) (this s1) else this s1).
  assert (buf_ b' = buf_ (this s1) ∧ capacity_ b' = capacity_ (this s1) ∧
          size_ b' = (if decide (size_ b ≤ offset) then offset + 1 else size_ b))
    as (Hbuf' & Hcap' & Hsize').
  { subst b'. rewrite Hsize, Hwrap. by destruct (decide (size_ b ≤ offset)). }
  assert (at_ offset (mkState w2 b') = Ok (Some v, mkState w2 b')) as Hat.
  { apply at_element; simpl.
    - rewrite (element_buf _ _ (this s1)) by done.
      rewrite (element_write_in _ _ _ _ _ _ Hw) by (simpl; lia).
      by rewrite Z.sub_diag.
    - rewrite Hsize'. destruct (decide (size_ b ≤ offset)); lia. }
  rewrite Hcap', Hsize', Hcap.
  split; [done|].
  split; [intros ?; by rewrite decide_True|].
  split; [intros ?; by rewrite decide_False by lia|].
  split; [intros ?; by rewrite decide_True|].
  split; [intros ?; by rewrite decide_False by lia|].
  intros Hz ->. split; [by rewrite decide_True by lia|]. split; [done|].
  destruct (decide (capacity_ b ≤ 100)); lia.
Qed.

(** *** The appends *)

Lemma memcpy_Ok dst src bytes w w' :
  memcpy dst src bytes w = Ok (tt, w') →
  (cells bytes = 0%nat ∧ w' = w) ∨
  (cells bytes ≠ 0%nat ∧ ¬ overlap dst src (cells bytes) ∧
   ∃ cs, mem_read src (cells bytes) w = Some cs ∧ mem_write dst cs w = Some w').
Proof.
  unfold memcpy. destruct (decide (cells bytes = 0%nat)).
  - intros [= <-]. by left.
  - destruct (decide (overlap dst src (cells bytes))); [done|].
    destruct (mem_read _ _ _) as [cs|] eqn:Hcs; [|done].
    destruct (mem_write _ _ _) as [w2|] eqn:Hw; [|done].
    intros [= <-]. right. eauto.
Qed.

Lemma unsafeAppend_Ok offset src items s s' :
  unsafeAppend offset src items s = Ok (tt, s') →
  this s' = set_size_ (wrap64 (offset + items)) (this s) ∧
  ((0 < items ∧
    memcpy (ptr_add (data (this s)) offset) src (sizeInBytes items) (world s)
    = Ok (tt, world s')) ∨
   (items ≤ 0 ∧ world s' = world s)).
Proof.
  unfold unsafeAppend. rewrite bind_Ok. intros (b & s0 & [= <- <-] & Hr).
  apply bind_Ok in Hr as ([] & s1 & Hcp & [= <-]). simpl.
  destruct (decide (0 < items)).
  - apply lift_Ok in Hcp as (w' & Hcp & ->). simpl. split; [done|]. by left.
  - injection Hcp as <-. split; [done|]. right. split; [lia | done].
Qed.

Lemma unsafeAppend_value_Ok v s s' :
  unsafeAppend_value v s = Ok (tt, s') →
  ∃ w', mem_write (mkPtr (buf_ (this s)) (size_ (this s))) [Some v] (world s)
        = Some w' ∧
        s' = mkState w' (set_size_ (wrap64 (size_ (this s) + 1)) (this s)).
Proof.
  unfold unsafeAppend_value. rewrite bind_Ok. intros (b & s0 & [= <- <-] & Hr).
  apply bind_Ok in Hr as ([] & s1 & Hst & [= <-]).
  apply store_Ok in Hst as (w' & Hw & ->). eauto.
Qed.

Lemma extendAppend_Ok offset src items s s' :
  extendAppend offset src items s = Ok (tt, s') →
  let m := wrap64 (offset + items) in
  ∃ s1,
    ((capacity_ (this s) < m ∧
      reserve (wrap64 (m + wrap64 (m + 1) / 2 + 1)) s = Ok (tt, s1)) ∨
     (m ≤ capacity_ (this s) ∧ s1 = s)) ∧
    unsafeAppend offset src items s1 = Ok (tt, s').
Proof.
  unfold extendAppend. rewrite bind_Ok. intros (b & s0 & [= <- <-] & Hr).
  apply bind_Ok in Hr as ([] & s1 & Hres & Hr). simpl.
  exists s1. split; [|done].
  destruct (decide (capacity_ (this s) < wrap64 (offset + items))).
  - left. by split.
  - right. split; [lia|]. by injection Hres.
Qed.

Lemma append_value_Ok v s s' :
  append_value v s = Ok (tt, s') →
  ∃ s1,
    ((capacity_ (this s) ≤ size_ (this s) ∧
      reserve (wrap64 (capacity_ (this s) +
                       wrap64 (capacity_ (this s) + 1) / 2 + 1)) s
      = Ok (tt, s1)) ∨
     (size_ (this s) < capacity_ (this s) ∧ s1 = s)) ∧
    unsafeAppend_value v s1 = Ok (tt, s').
Proof.
  unfold append_value. rewrite bind_Ok. intros (b & s0 & [= <- <-] & Hr).
  apply bind_Ok in Hr as ([] & s1 & Hres & Hr).
  exists s1. split; [|done].
  destruct (decide (capacity_ (this s) ≤ size_ (this s))).
  - left. by split.
  - right. split; [lia|]. by injection Hres.
Qed.

Lemma append_ptr_Ok offset src items s s' :
  append_ptr offset src items s = Ok (tt, s') →
  ∃ s1, reserve (wrap64 (offset + items)) s = Ok (tt, s1) ∧
        unsafeAppend offset src items s1 = Ok (tt, s').
Proof.
  unfold append_ptr. rewrite bind_Ok. intros ([] & s1 & ? & ?). eauto.
Qed.

Lemma append_Ok offset src srcOffset items s s' :
  append offset src srcOffset items s = Ok (tt, s') →
  wrap64 (srcOffset + items) ≤ size src ∧
  append_ptr offset (ptr_add (data src) srcOffset) items s = Ok (tt, s').
Proof.
  unfold append. rewrite bind_Ok. intros ([] & s1 & Hchk & ?).
  apply check_Ok in Hchk as [? ->]. done.
Qed.

(** C1, as amended. A growth-triggering call that returns, with no 64-bit
    wrap-around in the growth expression, leaves the capacity
    - [m + (m + 1) / 2 + 1] for [extend(additional)], [m] being
      [length + additional], and for [extendAppend(offset, src, count)],
      [m] being [offset + count];
    - [c + (c + 1) / 2 + 1] for [append(value)], [c] being the old capacity
      (not the requested extent [length + 1]);
    - [max(offset + 1, c + (c + 1) / 2 + 1)] for [safeSet(offset, value)]. *)
Theorem growth_capacity w b :
  u64 (size_ b) → u64 (capacity_ b) →
  (∀ n s', u64 n → capacity_ b < size_ b + n →
     growth_policy (size_ b + n) < two64 →
     run (extend n) w b = Ok (tt, s') →
     capacity (this s') = growth_policy (size_ b + n)) ∧
  (∀ offset src items s', u64 offset → u64 items →
     capacity_ b < offset + items →
     growth_policy (offset + items) < two64 →
     run (extendAppend offset src items) w b = Ok (tt, s') →
     capacity (this s') = growth_policy (offset + items)) ∧
  (∀ v s', capacity_ b ≤ size_ b →
     growth_policy (capacity_ b) < two64 →
     run (append_value v) w b = Ok (tt, s') →
     capacity (this s') = growth_policy (capacity_ b)) ∧
  (∀ offset v s', u64 offset → capacity_ b ≤ offset →
     growth_policy (capacity_ b) < two64 →
     run (safeSet offset v) w b = Ok (tt, s') →
     capacity (this s') = Z.max (offset + 1) (growth_policy (capacity_ b))).
Proof.
  intros [Hs0 Hs] [Hc0 Hc]. unfold capacity.
  split; [|split; [|split]].
  - intros n s' [Hn0 Hn] Hgrow Hg Hrun.
    pose proof (growth_policy_gt (size_ b + n)).
    apply extend_Ok in Hrun. simpl in Hrun.
    rewrite (wrap64_small (size_ b + n)) in Hrun by (unfold u64; lia).
    rewrite growth_policy_wrap in Hrun by lia.
    destruct Hrun as [[? _]|[_ Hr]]; [lia|].
    destruct (reserve_fields _ _ _ Hr) as (_ & _ & _ & Hcap).
    simpl in Hcap. lia.
  - intros offset src items s' [Ho0 Ho] [Hi0 Hi] Hgrow Hg Hrun.
    pose proof (growth_policy_gt (offset + items)).
    apply extendAppend_Ok in Hrun as (s1 & Hres & Hua). simpl in Hres.
    rewrite (wrap64_small (offset + items)) in Hres by (unfold u64; lia).
    rewrite growth_policy_wrap in Hres by lia.
    destruct Hres as [[_ Hr]|[? _]]; [|lia].
    destruct (reserve_fields _ _ _ Hr) as (_ & _ & _ & Hcap).
    apply unsafeAppend_Ok in Hua as [-> _].
    simpl in *. lia.
  - intros v s' Hfull Hg Hrun.
    pose proof (growth_policy_gt (capacity_ b)).
    apply append_value_Ok in Hrun as (s1 & Hres & Hua). simpl in Hres.
    rewrite growth_policy_wrap in Hres by lia.
    destruct Hres as [[_ Hr]|[? _]]; [|lia].
    destruct (reserve_fields _ _ _ Hr) as (_ & _ & _ & Hcap).
    apply unsafeAppend_value_Ok in Hua as (w' & _ & ->).
    simpl in *. lia.
  - intros offset v s' Ho Hge Hg Hrun.
    by apply (safeSet_post offset v w b s').
Qed.

(** *** [append] from another buffer *)

Lemma reserve_frame c s s' :
  reserve c s = Ok (tt, s') →
  0 ≤ capacity_ (this s) →
  (capacity_ (this s) < c → Z.pos sizeofT * c < two64) →
  ∀ q, q ≠ buf_ (this s) → is_Some (mem (world s) !! q) →
    q ≠ buf_ (this s') ∧ mem (world s') !! q = mem (world s) !! q.
Proof.
  intros Hr Hc0 Hfit q Hq Hlive.
  destruct (decide (capacity_ (this s) < c)) as [Hgrow|Hstay].
  - destruct (reserve_grow _ _ _ Hr) as (_ & _ & _ & Hframe); [lia | auto |].
    by apply Hframe.
  - apply reserve_Ok in Hr as [(_ & _ & ->)|(? & _)]; [done | lia].
Qed.

Lemma append_underflow offset src srcOffset items w b :
  u64 (srcOffset + items) → size src < srcOffset + items →
  run (append offset src srcOffset items) w b = Fatal SourceUnderflow.
Proof.
  intros Hu Hlt. unfold run, append. apply bind_Fatal.
  apply check_false. rewrite wrap64_small by done. lia.
Qed.

Lemma append_copies offset src srcOffset items w b s' :
  u64 offset → u64 srcOffset → u64 items →
  Z.pos sizeofT * (offset + items) < two64 →
  0 ≤ capacity_ b → buf_ src ≠ buf_ b →
  run (append offset src srcOffset items) w b = Ok (tt, s') →
  offset + items ≤ capacity (this s') ∧
  size (this s') = offset + items ∧
  ∀ i x, 0 ≤ i < items → element w src (srcOffset + i) = Some x →
         element (world s') (this s') (offset + i) = Some x.
Proof.
  intros [Ho0 Ho] [Hso0 Hso] [Hi0 Hi] Hfit Hc0 Hsrc Hrun.
  unfold capacity, size.
  apply append_Ok in Hrun as [_ Hrun].
  apply append_ptr_Ok in Hrun as (s1 & Hres & Hua).
  assert (u64 (offset + items)) as Hu by (apply fits_u64; [lia | done]).
  rewrite (wrap64_small _ Hu) in Hres.
  destruct (reserve_fields _ _ _ Hres) as (_ & _ & _ & Hcap).
  pose proof (reserve_frame _ _ _ Hres) as Hframe. simpl in Hcap, Hframe.
  apply unsafeAppend_Ok in Hua as [Hthis Hcopy].
  rewrite Hthis, (wrap64_small _ Hu). simpl.
  split; [lia|]. split; [done|].
  intros i x Hi' Hx.
  destruct Hcopy as [[_ Hcp]|[? _]]; [|lia].
  apply memcpy_Ok in Hcp.
  rewrite cells_sizeInBytes in Hcp by nia.
  destruct Hcp as [[? _]|(_ & _ & cs & Hrd & Hwr)]; [lia|].
  apply mem_read_Some in Hrd as (_ & _ & blk & Hblk & Hlen & ->).
  unfold ptr_add, data in Hblk, Hlen, Hwr. simpl in Hblk, Hlen, Hwr.
  rewrite Z.add_0_l in Hwr, Hlen.
  apply element_Some in Hx as (Hs0 & _ & blk0 & Hblk0 & Hx).
  destruct (Hframe Hc0 (λ _, Hfit) (buf_ src) Hsrc (mk_is_Some _ _ Hblk0))
    as [_ Hsame].
  assert (blk = blk0) as -> by congruence.
  rewrite (element_buf _ _ (this s1)) by done.
  rewrite (element_write_in _ _ _ _ _ _ Hwr)
    by (rewrite length_take, length_drop; lia).
  rewrite lookup_take_lt by lia. rewrite lookup_drop.
  rewrite <- Hx. f_equal. lia.
Qed.

(** *** Moves, [clear] and the destructor *)

(** The members as [clear] leaves them. *)
Lemma clear_Ok s s' :
  clear s = Ok (tt, s') →
  this s' = set_buf_ 0 (set_capacity_ 0 (set_size_ 0 (this s))) ∧
  ((owning (this s) ∧ buf_ (this s) ≠ 0 ∧
    free (pool_ (this s)) (buf_ (this s)) (sizeInBytes (capacity_ (this s)))
      (world s) = Ok (tt, world s')) ∨
   (¬ (owning (this s) ∧ buf_ (this s) ≠ 0) ∧ world s' = world s)).
Proof.
  unfold clear. rewrite bind_Ok. intros (b & s0 & [= <- <-] & Hr).
  apply bind_Ok in Hr as ([] & s1 & Hfree & Hr).
  apply bind_Ok in Hr as ([] & s2 & [= <-] & Hr).
  apply bind_Ok in Hr as ([] & s3 & [= <-] & [= <-]). simpl.
  unfold owning.
  destruct (decide (veloxRef_ (this s) = None ∧ buf_ (this s) ≠ 0)) as [[??]|].
  - apply lift_Ok in Hfree as (w' & Hfree & ->). simpl. split; [done|].
    left. done.
  - injection Hfree as <-. split; [done|]. by right.
Qed.

Lemma clear_null w b :
  buf_ b = 0 →
  run clear w b =
  Ok (tt, mkState w (set_buf_ 0 (set_capacity_ 0 (set_size_ 0 b)))).
Proof.
  intros Hb. unfold run, clear.
  read_this.
  rewrite decide_False; [done|]. intros [_ ?]. done.
Qed.

Lemma destroy_null w b : buf_ b = 0 → destroy b w = Ok w.
Proof.
  intros Hb. unfold destroy.
  pose proof (clear_null w b Hb) as Hc. unfold run in Hc. by rewrite Hc.
Qed.

(** C8. Moving [A] into a new object [B] gives [B] every member [A] had
    (pool, aliased source, data pointer, length, capacity) and leaves [A]
    with [length = capacity = 0] and [data = nullptr]; destroying [A]
    afterwards returns with the memory and the log of pool calls as they
    were. *)
Theorem move_transfers A :
  let B := (move_construct A).1 in
  let A' := (move_construct A).2 in
  B = A ∧
  size A' = 0 ∧ capacity A' = 0 ∧ buf_ A' = 0 ∧
  ∀ w, destroy A' w = Ok w.
Proof.
  simpl. split; [by destruct A|]. repeat split.
  intros w. by apply destroy_null.
Qed.

(** C10. After a [clear()] that returned, the object has [length = 0],
    [capacity = 0] and [data = nullptr]; a second [clear()], or the
    destructor, in whatever memory, returns with the memory, the log of
    pool calls and the object as they were; and the first [clear()] made at
    most one pool call, the [free] of its data. *)
Theorem clear_idempotent w b s1 :
  run clear w b = Ok (tt, s1) →
  size (this s1) = 0 ∧ capacity (this s1) = 0 ∧ buf_ (this s1) = 0 ∧
  (∀ w2, run clear w2 (this s1) = Ok (tt, mkState w2 (this s1))) ∧
  (∀ w2, destroy (this s1) w2 = Ok w2) ∧
  (calls (world s1) = calls w ∨
   calls (world s1) =
     Free (pool_ b) (buf_ b) (sizeInBytes (capacity_ b)) :: calls w).
Proof.
  intros Hrun. apply clear_Ok in Hrun as [Hthis Hworld]. simpl in *.
  rewrite Hthis. simpl. repeat split.
  - intros w2. by rewrite clear_null.
  - intros w2. by apply destroy_null.
  - destruct Hworld as [(_ & _ & Hfree)|[_ ->]]; [|by left].
    right. unfold free in Hfree.
    destruct (decide (pool_ b = 0)); [done|].
    destruct (mem w !! buf_ b); [|done].
    by injection Hfree as <-.
Qed.

(** *** The invariants *)

(** The invariants, with the capacity a 64-bit value. *)
Lemma reserve_invariant c w b s' :
  run (reserve c) w b = Ok (tt, s') →
  invariant b → capacity_ b < two64 →
  0 ≤ c → Z.pos sizeofT * c < two64 →
  invariant (this s') ∧ capacity_ (this s') < two64 ∧
  c ≤ capacity_ (this s') ∧
  capacity_ b ≤ capacity_ (this s') ∧
  size_ (this s') = size_ b.
Proof.
  intros Hr [[Hs0 Hs] Hbuf] Hc Hc0 Hfit. unfold run in Hr.
  assert (c < two64) by nia.
  apply reserve_Ok in Hr as [(? & ? & ->)|(? & _ & p & w' & _ & Hp & ->)];
    simpl in *.
  - repeat split; try done; lia.
  - unfold invariant. simpl.
    rewrite sizeInBytes_small in Hp by done.
    assert (p ≠ 0) by (destruct Hp; [done | nia]).
    repeat split; try done; lia.
Qed.

Lemma call_invariant op w b s' :
  invariant b → capacity_ b < two64 → in_range b op →
  run (call op) w b = Ok (tt, s') →
  invariant (this s') ∧ capacity_ (this s') < two64.
Proof.
  intros Hinv Hc [Hargs Hfit] Hrun. unfold run in Hrun.
  pose proof Hinv as [[Hs0 Hs] Hbuf].
  destruct op as [c|n|n|offset src srcOffset items|offset src items
                 |offset v|offset src items|v|]; simpl in *.
  - (* reserve *)
    destruct Hargs.
    by destruct (reserve_invariant _ _ _ _ Hrun Hinv Hc) as (? & ? & _); [lia | done |].
  - (* extend *)
    destruct Hargs as [Hn0 Hn].
    apply extend_Ok in Hrun. simpl in Hrun.
    destruct (decide (capacity_ b < size_ b + n)) as [Hgrow|Hstay].
    + pose proof (growth_policy_gt (size_ b + n)).
      assert (growth_policy (size_ b + n) < two64) by nia.
      rewrite (wrap64_small (size_ b + n)) in Hrun by (unfold u64; lia).
      rewrite growth_policy_wrap in Hrun by lia.
      destruct Hrun as [[? _]|[_ Hr]]; [lia|].
      by destruct (reserve_invariant _ _ _ _ Hr Hinv Hc) as (? & ? & _); [lia | done |].
    + rewrite (wrap64_small (size_ b + n)) in Hrun by (unfold u64; lia).
      destruct Hrun as [[_ ->]|[? _]]; [done | lia].
  - (* resize *)
    destruct Hargs as [Hn0 Hn].
    apply resize_Ok in Hrun as (s1 & Hres & Hrest).
    destruct (reserve_invariant _ _ _ _ Hres Hinv Hc)
      as ([_ Hbuf1] & Hc1 & Hle & _ & _); [lia | done |]. simpl in *.
    assert (this s' = set_size_ n (this s1)) as ->
      by (by destruct Hrest as [(_ & w2 & _ & ->)|(_ & ->)]).
    unfold invariant. simpl. repeat split; try done; lia.
  - (* append from a buffer *)
    destruct Hargs as ([Ho0 Ho] & _ & [Hi0 Hi]).
    apply append_Ok in Hrun as [_ Hrun].
    apply append_ptr_Ok in Hrun as (s1 & Hres & Hua).
    assert (u64 (offset + items)) as Hu by (apply fits_u64; [lia | done]).
    rewrite (wrap64_small _ Hu) in Hres.
    destruct (reserve_invariant _ _ _ _ Hres Hinv Hc)
      as ([_ Hbuf1] & Hc1 & Hle & _ & _); [lia | done |]. simpl in *.
    apply unsafeAppend_Ok in Hua as [-> _]. rewrite (wrap64_small _ Hu).
    unfold invariant. simpl. repeat split; try done; lia.
  - (* append from a pointer *)
    destruct Hargs as ([Ho0 Ho] & [Hi0 Hi]).
    apply append_ptr_Ok in Hrun as (s1 & Hres & Hua).
    assert (u64 (offset + items)) as Hu by (apply fits_u64; [lia | done]).
    rewrite (wrap64_small _ Hu) in Hres.
    destruct (reserve_invariant _ _ _ _ Hres Hinv Hc)
      as ([_ Hbuf1] & Hc1 & Hle & _ & _); [lia | done |]. simpl in *.
    apply unsafeAppend_Ok in Hua as [-> _]. rewrite (wrap64_small _ Hu).
    unfold invariant. simpl. repeat split; try done; lia.
  - (* safeSet *)
    destruct Hargs as [Ho0 Ho].
    apply safeSet_Ok in Hrun as (s1 & w2 & Hres & _ & ->). simpl in *.
    pose proof (growth_policy_gt (capacity_ b) ltac:(lia)).
    destruct (decide (capacity_ b ≤ offset)) as [Hgrow|Hstay].
    + destruct Hres as [[_ Hr]|[? _]]; [|lia].
      assert (Z.max (offset + 1) (growth_policy (capacity_ b)) < two64) by nia.
      rewrite growth_policy_wrap in Hr by lia.
      rewrite (wrap64_small (offset + 1)) in Hr |- * by (unfold u64; lia).
      destruct (reserve_invariant _ _ _ _ Hr Hinv Hc)
        as ([[Hs10 Hs1] Hbuf1] & Hc1 & Hle & _ & Hsz); [lia | done |]. simpl in *.
      destruct (decide (size_ (this s1) ≤ offset));
        unfold invariant; simpl; repeat split; try done; lia.
    + destruct Hres as [[? _]|[_ ->]]; [lia|]. simpl.
      rewrite (wrap64_small (offset + 1)) by (unfold u64; lia).
      destruct (decide (size_ b ≤ offset));
        unfold invariant; simpl; repeat split; try done; lia.
  - (* extendAppend *)
    destruct Hargs as ([Ho0 Ho] & [Hi0 Hi]).
    apply extendAppend_Ok in Hrun as (s1 & Hres & Hua). simpl in Hres.
    apply unsafeAppend_Ok in Hua as [-> _].
    destruct (decide (capacity_ b < offset + items)) as [Hgrow|Hstay].
    + pose proof (growth_policy_gt (offset + items)).
      assert (growth_policy (offset + items) < two64) by nia.
      rewrite (wrap64_small (offset + items)) in Hres |- * by (unfold u64; lia).
      rewrite growth_policy_wrap in Hres by lia.
      destruct Hres as [[_ Hr]|[? _]]; [|lia].
      destruct (reserve_invariant _ _ _ _ Hr Hinv Hc)
        as ([_ Hbuf1] & Hc1 & Hle & _ & _); [lia | done |]. simpl in *.
      unfold invariant. simpl. repeat split; try done; lia.
    + rewrite (wrap64_small (offset + items)) in Hres |- * by (unfold u64; lia).
      destruct Hres as [[? _]|[_ ->]]; [lia|].
      unfold invariant. simpl. repeat split; try done; lia.
  - (* append a value *)
    apply append_value_Ok in Hrun as (s1 & Hres & Hua). simpl in Hres.
    apply unsafeAppend_value_Ok in Hua as (w' & _ & ->). simpl.
    pose proof (growth_policy_gt (capacity_ b) ltac:(lia)).
    destruct (decide (capacity_ b ≤ size_ b)) as [Hgrow|Hstay].
    + assert (growth_policy (capacity_ b) < two64) by nia.
      rewrite growth_policy_wrap in Hres by lia.
      destruct Hres as [[_ Hr]|[? _]]; [|lia].
      destruct (reserve_invariant _ _ _ _ Hr Hinv Hc)
        as ([_ Hbuf1] & Hc1 & Hle & _ & Hsz); [lia | done |]. simpl in *.
      rewrite Hsz, (wrap64_small (size_ b + 1)) by (unfold u64; lia).
      unfold invariant. simpl. repeat split; try done; lia.
    + destruct Hres as [[? _]|[_ ->]]; [lia|]. simpl.
      rewrite (wrap64_small (size_ b + 1)) by (unfold u64; lia).
      unfold invariant. simpl. repeat split; try done; lia.
  - (* clear *)
    apply clear_Ok in Hrun as [-> _].
    unfold invariant, two64. simpl. repeat split; try done; lia.
Qed.

(** C2, as amended. After construction, [wrap], a move, and after every
    call of [reserve], [extend], [resize], [append] (its three forms),
    [safeSet], [extendAppend] and [clear] that returns -- the size
    arithmetic of the calls staying within 64 bits -- both
    [0 <= length <= capacity] and [capacity != 0 implies data != nullptr]
    hold (and the capacity is a 64-bit value). *)
Theorem invariants_hold b :
  reachable b →
  (0 ≤ size b ≤ capacity b ∧ (capacity b ≠ 0 → buf_ b ≠ 0)) ∧
  capacity b < two64.
Proof.
  induction 1 as [pool n w b w' [Hn0 Hn] Hc|r b Has [Hz0 Hz] Hw
                 |b _ IH|b _ IH|op w b s' _ IH Hrange Hrun].
  - unfold construct in Hc.
    destruct (allocateZeroFilled _ _ _ _) as [[p w1]| |]; [|done..].
    destruct (decide (p ≠ 0 ∨ n = 0)) as [Hp|]; [|done].
    injection Hc as <- <-. unfold invariant, size, capacity. simpl.
    assert (n ≠ 0 → p ≠ 0) by (intros ?; destruct Hp; [done | lia]).
    repeat split; try done; lia.
  - injection Hw as <-. unfold invariant, size, capacity. simpl.
    assert (0 ≤ buffer_size r / Z.pos sizeofT) by (apply Z.div_pos; lia).
    assert (buffer_size r / Z.pos sizeofT ≤ buffer_size r)
      by (apply Z.div_le_upper_bound; nia).
    repeat split; try done; lia.
  - destruct IH as [[??] ?]. by destruct b.
  - unfold invariant, size, capacity, two64. simpl. repeat split; try done; lia.
  - destruct IH. by apply (call_invariant op w b s').
Qed.

(** *** Calls that return *)

Lemma reserve_request_grants c b w :
  owning b → backed w b → grants w (sizeInBytes c) →
  ∃ p w', reserve_request c b w = Ok (p, w') ∧ p ≠ 0.
Proof.
  intros _ (Hpool & _ & Hblk) Hgrant.
  destruct (fresh_addr_spec (mem w)) as [Hfresh _].
  unfold reserve_request, grants in *. destruct (decide (buf_ b = 0)) as [|Hb].
  - unfold allocate. rewrite decide_False by done.
    destruct (oracle _ _); [done | eauto..].
  - unfold reallocate. rewrite decide_False by done.
    destruct (Hblk Hb) as (blk & -> & _).
    destruct (oracle _ _); [done | eauto..].
Qed.

(** [reserve] returns on a buffer in owning mode whose storage is in place,
    when the pool grants the request it may make; the storage is in place
    afterwards. *)
Lemma reserve_returns c w b :
  owning b → backed w b →
  (c ≤ capacity_ b → buf_ b ≠ 0) →
  (capacity_ b < c →
   0 ≤ capacity_ b ∧ Z.pos sizeofT * c < two64 ∧ grants w (sizeInBytes c)) →
  ∃ s', run (reserve c) w b = Ok (tt, s') ∧
        backed (world s') (this s') ∧ buf_ (this s') ≠ 0.
Proof.
  intros Hown Hback Hnoop Hgrow.
  destruct (decide (c ≤ capacity_ b)) as [Hle|Hgt].
  - exists (mkState w b). split; [by apply reserve_noop; auto|]. auto.
  - destruct Hgrow as (Hc0 & Hfit & Hgrant); [lia|].
    destruct (reserve_request_grants c b w Hown Hback Hgrant)
      as (p & w' & Hreq & Hp).
    exists (mkState w' (set_capacity_ c (set_buf_ p b))).
    assert (run (reserve c) w b
            = Ok (tt, mkState w' (set_capacity_ c (set_buf_ p b)))) as Hrun.
    { unfold run, reserve. read_this.
      rewrite decide_False by done. unfold owning in Hown. rewrite Hown.
      unfold reserve_request in Hreq.
      destruct (decide (buf_ b = 0)).
      - unfold mbind, M_bind, lift. simpl. rewrite Hreq. simpl.
        unfold check. by rewrite decide_True by auto.
      - unfold mbind, M_bind, lift. simpl. rewrite Hreq. simpl.
        unfold check. by rewrite decide_True by auto. }
    split; [done|]. simpl.
    destruct (reserve_request_Ok _ _ _ _ _ Hreq Hp) as [(blk & Hblk & Hlen & _) _].
    destruct Hback as (Hpool & _ & _).
    split; [|done]. unfold backed. simpl.
    split; [done|]. split; [done|]. intros _. exists blk. split; [done|].
    rewrite Hlen, cells_sizeInBytes by lia. lia.
Qed.

Lemma extend_returns n w b :
  u64 n → 0 ≤ size_ b → u64 (capacity_ b) →
  owning b → backed w b →
  (capacity_ b < size_ b + n →
   Z.pos sizeofT * growth_policy (size_ b + n) < two64 ∧
   grants w (sizeInBytes (growth_policy (size_ b + n)))) →
  ∃ s', run (extend n) w b = Ok (tt, s').
Proof.
  intros [Hn0 Hn] Hs0 [Hc0 Hc] Hown Hback Hgrow.
  unfold run, extend. read_this.
  destruct (decide (capacity_ b < size_ b + n)) as [Hlt|Hge].
  - destruct (Hgrow Hlt) as [Hfit Hgrant].
    pose proof (growth_policy_gt (size_ b + n)).
    assert (growth_policy (size_ b + n) < two64) by nia.
    rewrite (wrap64_small (size_ b + n)) by (unfold u64; lia).
    rewrite decide_True by done. rewrite growth_policy_wrap by lia.
    destruct (reserve_returns (growth_policy (size_ b + n)) w b Hown Hback)
      as (s' & Hrun & _); [lia | auto | eauto].
  - rewrite (wrap64_small (size_ b + n)) by (unfold u64; lia).
    rewrite decide_False by lia. eauto.
Qed.

Lemma mem_write_in_block w a k cs blk :
  a ≠ 0 → 0 ≤ k → mem w !! a = Some blk →
  k + Z.of_nat (length cs) ≤ Z.of_nat (length blk) →
  is_Some (mem_write (mkPtr a k) cs w).
Proof.
  intros Ha Hk Hblk Hlen. unfold mem_write. simpl. rewrite Hblk.
  rewrite decide_True; [done|]. repeat split; [done..|lia].
Qed.

Lemma resize_returns n w b :
  u64 n → Z.pos sizeofT * n < two64 → 0 ≤ size_ b ≤ capacity_ b →
  owning b → backed w b →
  (n ≤ capacity_ b → buf_ b ≠ 0) →
  (capacity_ b < n → grants w (sizeInBytes n)) →
  ∃ s', run (resize n) w b = Ok (tt, s').
Proof.
  intros [Hn0 Hn] Hfit [Hs0 Hs] Hown Hback Hnoop Hgrant.
  destruct (reserve_returns n w b Hown Hback Hnoop)
    as (s1 & Hres & (_ & _ & Hblk1) & Hbuf1); [intros; split; [lia | auto]|].
  destruct (reserve_fields _ _ _ Hres) as (_ & _ & Hsize & Hcap). simpl in *.
  destruct (Hblk1 Hbuf1) as (blk & Hblk & Hlen).
  unfold run in *. unfold resize.
  rewrite (bind_step _ _ _ _ _ Hres).
  read_this. rewrite Hsize.
  destruct (decide (size_ b < n)) as [Hlt|Hge].
  - unfold mbind, M_bind, lift, memset0.
    rewrite (wrap64_small (n - size_ b)) by (unfold u64; lia).
    rewrite cells_sizeInBytes by nia.
    rewrite decide_False by lia.
    destruct (mem_write_in_block (world s1) (buf_ (this s1)) (0 + size_ b)
                (replicate (Z.to_nat (n - size_ b)) (Some zero)) blk)
      as [w2 Hw2]; [done | lia | done | rewrite length_replicate; lia |].
    unfold ptr_add, data. simpl. rewrite Hw2. simpl. eauto.
  - unfold mbind, M_bind. simpl. eauto.
Qed.

Lemma safeSet_returns offset v w b :
  u64 offset → u64 (capacity_ b) →
  owning b → backed w b →
  (capacity_ b ≤ offset →
   Z.pos sizeofT * Z.max (offset + 1) (growth_policy (capacity_ b)) < two64 ∧
   grants w (sizeInBytes (Z.max (offset + 1) (growth_policy (capacity_ b))))) →
  ∃ s', run (safeSet offset v) w b = Ok (tt, s').
Proof.
  intros [Ho0 Ho] [Hc0 Hc] Hown Hback Hgrow.
  pose proof (growth_policy_gt (capacity_ b) Hc0) as Hgt.
  assert (∃ s1, (if decide (capacity_ b ≤ offset)
                 then reserve (Z.max (wrap64 (offset + 1))
                        (wrap64 (capacity_ b +
                                 wrap64 (capacity_ b + 1) / 2 + 1)))
                 else mret tt) (mkState w b) = Ok (tt, s1) ∧
               ∃ blk, buf_ (this s1) ≠ 0 ∧
                      mem (world s1) !! buf_ (this s1) = Some blk ∧
                      offset + 1 ≤ Z.of_nat (length blk))
    as (s1 & Hres & blk & Hbuf1 & Hblk & Hlen).
  { destruct (decide (capacity_ b ≤ offset)) as [Hge|Hlt].
    - destruct (Hgrow Hge) as [Hfit Hgrant].
      assert (Z.max (offset + 1) (growth_policy (capacity_ b)) < two64) by nia.
      rewrite growth_policy_wrap by lia.
      rewrite (wrap64_small (offset + 1)) by (unfold u64; lia).
      destruct (reserve_returns
                  (Z.max (offset + 1) (growth_policy (capacity_ b))) w b
                  Hown Hback)
        as (s1 & Hres & (_ & _ & Hblk1) & Hbuf1); [lia | auto |].
      destruct (reserve_fields _ _ _ Hres) as (_ & _ & _ & Hcap). simpl in *.
      destruct (Hblk1 Hbuf1) as (blk & Hblk & Hlen).
      exists s1. split; [done|]. exists blk. repeat split; [done..|lia].
    - destruct Hback as (_ & Hnz & Hblk0).
      assert (buf_ b ≠ 0) as Hb by (apply Hnz; lia).
      destruct (Hblk0 Hb) as (blk & Hblk & Hlen).
      exists (mkState w b). split; [done|]. exists blk. simpl.
      repeat split; [done..|lia]. }
  destruct (mem_write_in_block (world s1) (buf_ (this s1)) offset
              [Some v] blk) as [w2 Hw2]; [done | lia | done | simpl; lia |].
  unfold run, safeSet.
  read_this.
  rewrite (bind_step _ _ _ _ _ Hres).
  read_this.
  unfold mbind, M_bind, store, lift. rewrite Hw2. simpl.
  destruct (decide (size_ (this s1) ≤ offset)); unfold modify; eauto.
Qed.

Lemma clear_returns w b :
  aliasing b ∨ buf_ b = 0 ∨ (pool_ b ≠ 0 ∧ is_Some (mem w !! buf_ b)) →
  ∃ s', run clear w b = Ok (tt, s').
Proof.
  intros Hcase. unfold run, clear.
  read_this.
  destruct (decide (veloxRef_ b = None ∧ buf_ b ≠ 0)) as [[Hown Hb]|Hno].
  - destruct Hcase as [?|[?|[Hpool [blk Hblk]]]]; [done..|].
    unfold mbind, M_bind, lift, free. simpl.
    rewrite decide_False by done. rewrite Hblk. simpl. eauto.
  - unfold mbind, M_bind. simpl. eauto.
Qed.

Lemma mem_read_in_block w a k n blk :
  a ≠ 0 → 0 ≤ k → mem w !! a = Some blk →
  k + Z.of_nat n ≤ Z.of_nat (length blk) →
  is_Some (mem_read (mkPtr a k) n w).
Proof.
  intros Ha Hk Hblk Hlen. unfold mem_read. simpl. rewrite Hblk.
  rewrite decide_True; [done|]. repeat split; [done..|lia].
Qed.

Lemma append_returns offset src srcOffset items w b :
  u64 offset → u64 srcOffset → u64 items →
  srcOffset + items < two64 → srcOffset + items ≤ size src →
  Z.pos sizeofT * (offset + items) < two64 →
  0 ≤ capacity_ b → owning b → backed w b →
  (offset + items ≤ capacity_ b → buf_ b ≠ 0) →
  (capacity_ b < offset + items → grants w (sizeInBytes (offset + items))) →
  buf_ src ≠ 0 → buf_ src ≠ buf_ b →
  (∃ blk, mem w !! buf_ src = Some blk ∧ size src ≤ Z.of_nat (length blk)) →
  ∃ s', run (append offset src srcOffset items) w b = Ok (tt, s').
Proof.
  intros [Ho0 Ho] [Hso0 Hso] [Hi0 Hi] Hsum Hsrc Hfit Hc0 Hown Hback Hnoop
    Hgrant Hsrc0 Hdiff (sblk & Hsblk & Hslen).
  assert (u64 (offset + items)) as Hu by (apply fits_u64; [lia | done]).
  destruct (reserve_returns (offset + items) w b Hown Hback Hnoop)
    as (s1 & Hres & (_ & _ & Hblk1) & Hbuf1); [intros; split; [lia | auto]|].
  destruct (reserve_fields _ _ _ Hres) as (_ & _ & _ & Hcap).
  destruct (reserve_frame _ _ _ Hres Hc0 (λ _, Hfit) (buf_ src) Hdiff
              (mk_is_Some _ _ Hsblk)) as [Hdiff1 Hsame].
  simpl in *. destruct (Hblk1 Hbuf1) as (blk & Hblk & Hlen).
  unfold run in *. unfold append.
  assert (wrap64 (srcOffset + items) ≤ size src) as Hchk
    by (rewrite wrap64_small by (unfold u64; lia); exact Hsrc).
  rewrite (bind_step _ _ _ _ _ (check_true _ SourceUnderflow (mkState w b) Hchk)).
  unfold append_ptr. rewrite (wrap64_small _ Hu).
  rewrite (bind_step _ _ _ _ _ Hres).
  unfold unsafeAppend. read_this.
  destruct (decide (0 < items)) as [Hpos|Hzero].
  - unfold mbind, M_bind, lift, memcpy.
    rewrite cells_sizeInBytes by nia.
    rewrite decide_False by lia.
    rewrite decide_False by (unfold overlap, ptr_add, data; simpl; intros [? _]; congruence).
    destruct (mem_read_in_block (world s1) (buf_ src) (0 + srcOffset)
                (Z.to_nat items) sblk) as [cs Hcs];
      [done | lia | congruence | unfold size in *; lia |].
    unfold ptr_add, data. simpl. rewrite Hcs.
    pose proof (mem_read_Some _ _ _ _ Hcs) as (_ & _ & blk' & _ & Hlen' & ->).
    simpl in *.
    destruct (mem_write_in_block (world s1) (buf_ (this s1)) (0 + offset)
                (take (Z.to_nat items) (drop (Z.to_nat (0 + srcOffset)) blk')) blk)
      as [w2 Hw2]; [done | lia | done | rewrite length_take, length_drop; lia |].
    rewrite Hw2. simpl. eauto.
  - unfold mbind, M_bind. simpl. eauto.
Qed.

(** *** The source check of [append], and writes outside a block *)

(** [reserve] and the unchecked append never report a source underflow. *)
Lemma reserve_not_underflow c s e :
  reserve c s = Fatal e → e ≠ SourceUnderflow.
Proof.
  unfold reserve. rewrite (bind_step _ _ _ _ _ (get_Ok _)).
  destruct (decide (c ≤ capacity_ (this s))).
  - unfold check. case_decide; [done|]. by intros [= <-].
  - destruct (veloxRef_ (this s)); [by intros [= <-]|].
    unfold mbind, M_bind, lift, modify, check, mret, M_ret, fail,
      allocate, reallocate.
    repeat (case_decide || case_match); simplify_eq; try done;
      by intros [= <-].
Qed.

Lemma unsafeAppend_not_fatal offset src items s e :
  unsafeAppend offset src items s ≠ Fatal e.
Proof.
  unfold unsafeAppend. rewrite (bind_step _ _ _ _ _ (get_Ok _)).
  unfold mbind, M_bind, lift, modify, mret, M_ret, memcpy.
  repeat (case_decide || case_match); simplify_eq; done.
Qed.

Lemma append_ptr_not_underflow offset src items s :
  append_ptr offset src items s ≠ Fatal SourceUnderflow.
Proof.
  unfold append_ptr, mbind, M_bind.
  destruct (reserve _ s) as [[[] s1]|e|] eqn:Hres; [| |done].
  - apply unsafeAppend_not_fatal.
  - intros [= ->]. by apply reserve_not_underflow in Hres.
Qed.

(** Once the source check has passed, [append] from a buffer is the pointer
    form. *)
Lemma append_delegates offset src srcOffset items s :
  wrap64 (srcOffset + items) ≤ size src →
  append offset src srcOffset items s
  = append_ptr offset (ptr_add (data src) srcOffset) items s.
Proof.
  intros Hle. unfold append.
  by rewrite (bind_step _ _ _ _ _ (check_true _ SourceUnderflow s Hle)).
Qed.

(** The source check compares the length with the 64-bit sum. *)
Lemma append_underflow_iff offset src srcOffset items w b :
  run (append offset src srcOffset items) w b = Fatal SourceUnderflow ↔
  size src < wrap64 (srcOffset + items).
Proof.
  unfold run. split.
  - intros Hrun.
    destruct (decide (size src < wrap64 (srcOffset + items))) as [|Hle];
      [done|].
    rewrite append_delegates in Hrun by lia.
    by apply append_ptr_not_underflow in Hrun.
  - intros Hlt. unfold append. apply bind_Fatal.
    apply check_false. lia.
Qed.

Lemma mem_write_outside p cs w blk :
  mem w !! base p = Some blk →
  (length blk < Z.to_nat (index p) + length cs)%nat →
  mem_write p cs w = None.
Proof.
  intros Hblk Hlen. unfold mem_write. rewrite Hblk.
  rewrite decide_False; [done|]. intros (_ & _ & ?). lia.
Qed.

(** [safeSet] that grows to a block not reaching [offset] writes outside
    it. *)
Lemma safeSet_outside offset v w b s1 blk :
  capacity_ b ≤ offset →
  reserve (Z.max (wrap64 (offset + 1))
             (wrap64 (capacity_ b + wrap64 (capacity_ b + 1) / 2 + 1)))
    (mkState w b) = Ok (tt, s1) →
  mem (world s1) !! buf_ (this s1) = Some blk →
  (length blk ≤ Z.to_nat offset)%nat →
  run (safeSet offset v) w b = Undefined.
Proof.
  intros Hc Hres Hblk Hlen. unfold run, safeSet.
  rewrite (bind_step _ _ _ _ _ (get_Ok _)).
  cbn [this]. rewrite decide_True by done.
  unfold mbind at 1, M_bind at 1. rewrite Hres.
  rewrite (bind_step _ _ _ _ _ (get_Ok _)).
  unfold mbind, M_bind, store, lift.
  rewrite (mem_write_outside _ _ _ blk); [done | done |].
  simpl. lia.
Qed.

(** *** The claims on [resize], [safeSet], [extend] and [append] *)

(** C5, as amended. [resize(newLength)] that returns leaves
    [capacity >= newLength] and [length = newLength]; when it grows the
    length, the elements at the indices [length, newLength) are zero and
    every other element is as before; when [newLength <= length], the
    capacity, the data pointer and the whole memory are as before --
    provided the byte size of [newLength] elements is computed without
    64-bit wrap-around. And it does return on a buffer in owning mode whose
    storage is in place, when the pool grants the request (and, no growth
    being needed, [data] is not null). *)
Theorem resize_spec n w b :
  u64 n → Z.pos sizeofT * n < two64 → 0 ≤ size_ b ≤ capacity_ b →
  (∀ s', run (resize n) w b = Ok (tt, s') →
     n ≤ capacity (this s') ∧
     size (this s') = n ∧
     (∀ i, size_ b ≤ i < n →
           element (world s') (this s') i = Some (Some zero)) ∧
     (∀ i x, 0 ≤ i < capacity_ b → ¬ (size_ b ≤ i < n) →
             element w b i = Some x →
             element (world s') (this s') i = Some x) ∧
     (n ≤ size_ b →
      capacity (this s') = capacity_ b ∧ buf_ (this s') = buf_ b ∧
      world s' = w)) ∧
  (owning b → backed w b →
   (n ≤ capacity_ b → buf_ b ≠ 0) →
   (capacity_ b < n → grants w (sizeInBytes n)) →
   ∃ s', run (resize n) w b = Ok (tt, s')).
Proof.
  intros Hn Hfit Hinv. split.
  - intros s' Hrun. by apply (resize_post n w b s').
  - intros. by apply resize_returns.
Qed.

(** C6, as amended. On a buffer whose capacity is a 64-bit value with
    [capacity + (capacity + 1) / 2 + 1] below [2^64], and for a 64-bit
    [offset]: [safeSet(offset, value)] that returns has written [value] at
    [offset] ([at(offset)] reads it); when [offset >= capacity] the capacity
    is [max(offset + 1, capacity + (capacity + 1) / 2 + 1)], otherwise it is
    unchanged; the length is [offset + 1] when [offset >= length], otherwise
    unchanged. In particular [safeSet(100, value)] on an empty buffer leaves
    [size() = 101], [at(100) = value] and [capacity() >= 101]. And it does
    return on a buffer in owning mode whose storage is in place when
    [offset < capacity], or when the byte size of the new capacity is below
    [2^64] and the pool grants the request. *)
Theorem safeSet_spec offset v w b :
  u64 offset → u64 (capacity_ b) → growth_policy (capacity_ b) < two64 →
  (∀ s', run (safeSet offset v) w b = Ok (tt, s') →
     at_ offset s' = Ok (Some v, s') ∧
     (capacity_ b ≤ offset →
      capacity (this s') = Z.max (offset + 1) (growth_policy (capacity_ b))) ∧
     (offset < capacity_ b → capacity (this s') = capacity_ b) ∧
     (size_ b ≤ offset → size (this s') = offset + 1) ∧
     (offset < size_ b → size (this s') = size_ b) ∧
     (size_ b = 0 → offset = 100 →
      size (this s') = 101 ∧ at_ 100 s' = Ok (Some v, s') ∧
      101 ≤ capacity (this s'))) ∧
  (owning b → backed w b →
   (capacity_ b ≤ offset →
    Z.pos sizeofT * Z.max (offset + 1) (growth_policy (capacity_ b)) < two64 ∧
    grants w (sizeInBytes (Z.max (offset + 1) (growth_policy (capacity_ b))))) →
   ∃ s', run (safeSet offset v) w b = Ok (tt, s')).
Proof.
  intros Ho Hc Hg. split.
  - intros s' Hrun. by apply (safeSet_post offset v w b s').
  - intros. by apply safeSet_returns.
Qed.

(** C7, as amended. For 64-bit arguments,
    [append(offset, otherBuffer, otherOffset, count)] fails fatally on its
    source check exactly when [otherBuffer.length] is below the 64-bit sum
    [(otherOffset + count) mod 2^64]: whenever
    [otherBuffer.length < otherOffset + count] and the sum is below [2^64],
    but not when the sum wraps around to a value within the length. Once
    the check has passed the call is the pointer form
    [append(offset, otherBuffer.data() + otherOffset, count)], which may
    still fail fatally inside [reserve]. When it returns, [otherBuffer]
    having storage of its own and the byte size of [offset + count]
    elements being below [2^64], the capacity is at least [offset + count],
    the [count] elements of [otherBuffer] from [otherOffset] on are at the
    indices [offset, offset + count), the length is [offset + count], and
    [otherBuffer.length >= otherOffset + count] unless that sum wraps
    around. It does return when
    [otherBuffer.length >= otherOffset + count], the sum being below
    [2^64], the buffer is in owning mode with its storage in place, the pool
    grants the request (and, no growth being needed, [data] is not null)
    and the elements of [otherBuffer] are there. *)
Theorem append_from_buffer offset src srcOffset items w b :
  u64 offset → u64 srcOffset → u64 items →
  (run (append offset src srcOffset items) w b = Fatal SourceUnderflow ↔
   size src < wrap64 (srcOffset + items)) ∧
  (srcOffset + items < two64 → size src < srcOffset + items →
   run (append offset src srcOffset items) w b = Fatal SourceUnderflow) ∧
  (wrap64 (srcOffset + items) ≤ size src →
   run (append offset src srcOffset items) w b
   = run (append_ptr offset (ptr_add (data src) srcOffset) items) w b) ∧
  (∀ s', run (append offset src srcOffset items) w b = Ok (tt, s') →
     Z.pos sizeofT * (offset + items) < two64 →
     0 ≤ capacity_ b → buf_ src ≠ buf_ b →
     (srcOffset + items < two64 → srcOffset + items ≤ size src) ∧
     offset + items ≤ capacity (this s') ∧
     size (this s') = offset + items ∧
     ∀ i x, 0 ≤ i < items → element w src (srcOffset + i) = Some x →
            element (world s') (this s') (offset + i) = Some x) ∧
  (srcOffset + items ≤ size src → srcOffset + items < two64 →
   Z.pos sizeofT * (offset + items) < two64 →
   0 ≤ capacity_ b → owning b → backed w b →
   (offset + items ≤ capacity_ b → buf_ b ≠ 0) →
   (capacity_ b < offset + items → grants w (sizeInBytes (offset + items))) →
   buf_ src ≠ 0 → buf_ src ≠ buf_ b →
   (∃ blk, mem w !! buf_ src = Some blk ∧ size src ≤ Z.of_nat (length blk)) →
   ∃ s', run (append offset src srcOffset items) w b = Ok (tt, s')).
Proof.
  intros Ho Hso Hi.
  split; [|split; [|split; [|split]]].
  - apply append_underflow_iff.
  - intros Hsum Hlt. apply append_underflow; [|done].
    unfold u64 in *. lia.
  - intros Hle. by apply append_delegates.
  - intros s' Hrun Hfit Hc0 Hsrc. split.
    + intros Hsum. pose proof (append_Ok _ _ _ _ _ _ Hrun) as [Hle _].
      rewrite wrap64_small in Hle; [done|]. unfold u64 in *. lia.
    + by apply (append_copies offset src srcOffset items w b s').
  - intros. by apply append_returns.
Qed.

(** C9, as amended. [extend(additional)] that returns leaves the length,
    the pool and the aliased source as they were, and leaves the content of
    the first [length] elements unchanged; when [length + additional] is
    within the capacity nothing changes at all, and when it exceeds the
    capacity the capacity grows to [m + (m + 1) / 2 + 1], [m] being
    [length + additional] -- provided the byte size of that new capacity is
    computed without 64-bit wrap-around. And it does return on a buffer in
    owning mode whose storage is in place, when the pool grants the
    request. *)
Theorem extend_frame n w b :
  u64 n → 0 ≤ size_ b ≤ capacity_ b → u64 (capacity_ b) →
  (capacity_ b < size_ b + n →
   Z.pos sizeofT * growth_policy (size_ b + n) < two64) →
  (∀ s', run (extend n) w b = Ok (tt, s') →
     size (this s') = size_ b ∧
     pool_ (this s') = pool_ b ∧
     veloxRef_ (this s') = veloxRef_ b ∧
     (∀ i x, 0 ≤ i < size_ b → element w b i = Some x →
             element (world s') (this s') i = Some x) ∧
     (size_ b + n ≤ capacity_ b → s' = mkState w b) ∧
     (capacity_ b < size_ b + n →
      capacity (this s') = growth_policy (size_ b + n) ∧
      capacity_ b < capacity (this s'))) ∧
  (owning b → backed w b →
   (capacity_ b < size_ b + n →
    grants w (sizeInBytes (growth_policy (size_ b + n)))) →
   ∃ s', run (extend n) w b = Ok (tt, s')).
Proof.
  intros Hn Hinv Hc Hfit. split.
  - intros s' Hrun. by apply (extend_post n w b s').
  - intros Hown Hback Hgrant. apply extend_returns; try done; [lia|].
    intros Hgrow. split; [by apply Hfit | by apply Hgrant].
Qed.

End Properties.

(** ** The scenarios of the specification, and the inputs at which a claim
    fails *)

Section Examples.

Local Existing Instances int32 granting.

(** The concrete objects are what the code builds. *)
Example construct_empty :
  construct the_pool 0 nothing = Ok (empty_buffer, empty_memory).
Proof. reflexivity. Qed.

Example construct_one :
  construct the_pool 1 nothing = Ok (one_buffer, one_memory).
Proof. reflexivity. Qed.

Example construct_three :
  construct the_pool 3 nothing = Ok (three_buffer, three_memory).
Proof. reflexivity. Qed.

Example clear_three :
  run clear three_memory three_buffer
  = Ok (tt, mkState cleared_memory cleared_buffer).
Proof. reflexivity. Qed.

Example wrap_789 : wrap (Some buffer_789) = Ok view_789.
Proof. reflexivity. Qed.

Example construct_two :
  construct the_pool 2 external_789 = Ok (two_buffer, two_memory).
Proof. reflexivity. Qed.

Example safeSet_100 :
  run (safeSet 100 42) empty_memory empty_buffer
  = Ok (tt, mkState set100_memory set100_buffer).
Proof. vm_compute. reflexivity. Qed.

(** The storage of the concrete buffers is in place, and the pool grants. *)
Example backed_empty : backed empty_memory empty_buffer.
Proof.
  split; [done|]. split; [done|]. intros _. exists []. split; [reflexivity|].
  simpl. lia.
Qed.

Example backed_three : backed three_memory three_buffer.
Proof.
  split; [done|]. split; [done|]. intros _.
  exists [Some 0; Some 0; Some 0]. split; [reflexivity|]. simpl. lia.
Qed.

Example backed_two : backed two_memory two_buffer.
Proof.
  split; [done|]. split; [done|]. intros _.
  exists [Some 0; Some 0]. split; [reflexivity|]. simpl. lia.
Qed.

Example granting_grants (w : World) (bytes : Z) : grants w bytes.
Proof. done. Qed.

(** End-to-end scenario 1: five [append(value)] on an empty buffer. *)
Example append_five :
  match
    after (append_value 5) (after (append_value 4) (after (append_value 3)
      (after (append_value 2) (after (append_value 1)
        (construct the_pool 0 nothing)))))
  with
  | Ok (b, w) => size b = 5 ∧ 5 ≤ capacity b ∧ element w b 2 = Some (Some 3)
  | _ => False
  end.
Proof. vm_compute. repeat split; congruence. Qed.

(** *** C1 *)

(** C1 fails for [append(value)] and for [safeSet]: on the empty buffer,
    [append(5)] requests the extent 1, above the capacity 0, and leaves the
    capacity 1, not [1 + (1 + 1) / 2 + 1 = 3]; [safeSet(100, 42)] requests
    the extent 101 and leaves the capacity 101, not 153. *)
Lemma growth_capacity_counterexample :
  owning empty_buffer ∧
  capacity empty_buffer < size empty_buffer + 1 ∧
  match run (append_value 5) empty_memory empty_buffer with
  | Ok (_, s') =>
      capacity (this s') = 1 ∧
      capacity (this s') ≠ growth_policy (size empty_buffer + 1)
  | _ => False
  end ∧
  capacity empty_buffer < 100 + 1 ∧
  match run (safeSet 100 42) empty_memory empty_buffer with
  | Ok (_, s') =>
      capacity (this s') = 101 ∧ capacity (this s') ≠ growth_policy (100 + 1)
  | _ => False
  end.
Proof. vm_compute. repeat split; congruence. Qed.

Lemma growth_capacity_witness :
  (∃ s', run (extend 5) empty_memory empty_buffer = Ok (tt, s') ∧
         capacity (this s') = growth_policy (size_ empty_buffer + 5)) ∧
  (∃ s', run (extendAppend 2 (mkPtr 50 0) 3) two_memory two_buffer = Ok (tt, s') ∧
         capacity (this s') = growth_policy (2 + 3)) ∧
  (∃ s', run (append_value 5) empty_memory empty_buffer = Ok (tt, s') ∧
         capacity (this s') = growth_policy (capacity_ empty_buffer)) ∧
  (∃ s', run (safeSet 100 42) empty_memory empty_buffer = Ok (tt, s') ∧
         capacity (this s') =
           Z.max (100 + 1) (growth_policy (capacity_ empty_buffer))).
Proof.
  assert (u64 0 ∧ u64 2 ∧ u64 3 ∧ u64 5 ∧ u64 100) as (U0 & U2 & U3 & U5 & U100)
    by (unfold u64, two64; lia).
  destruct (growth_capacity empty_memory empty_buffer U0 U0)
    as (Hextend & _ & Happend & HsafeSet).
  destruct (growth_capacity two_memory two_buffer U2 U2)
    as (_ & HextendAppend & _).
  split; [|split; [|split]].
  - eexists. split; [vm_compute; reflexivity|].
    apply Hextend; [done | simpl; lia | vm_compute; reflexivity
                   | vm_compute; reflexivity].
  - eexists. split; [vm_compute; reflexivity|].
    apply (HextendAppend 2 (mkPtr 50 0) 3);
      [done | done | simpl; lia | vm_compute; reflexivity
      | vm_compute; reflexivity].
  - eexists. split; [vm_compute; reflexivity|].
    apply (Happend 5); [simpl; lia | vm_compute; reflexivity
                       | vm_compute; reflexivity].
  - eexists. split; [vm_compute; reflexivity|].
    apply (HsafeSet 100 42); [done | simpl; lia | vm_compute; reflexivity
                             | vm_compute; reflexivity].
Defined.

(** *** C2 *)

(** C2 fails. After [DataBuffer b(pool)] on a pool that answers a request
    of zero bytes with a pointer, [data] is not null at capacity 0. And
    [extendAppend(2^64 - 1, src, 0)] on a buffer of one element wraps the
    growth expression around to 0, reserves nothing and leaves
    [length = 2^64 - 1] above [capacity = 1]. *)
Lemma invariants_counterexample :
  (construct the_pool 0 nothing = Ok (empty_buffer, empty_memory) ∧
   ¬ stated_invariant empty_buffer) ∧
  (construct the_pool 1 nothing = Ok (one_buffer, one_memory) ∧
   match run (extendAppend 18446744073709551615 (mkPtr 0 0) 0)
           one_memory one_buffer with
   | Ok (_, s') => ¬ stated_invariant (this s') ∧ capacity (this s') < size (this s')
   | _ => False
   end).
Proof.
  split; split; try reflexivity.
  - intros [_ [_ Hnull]]. specialize (Hnull eq_refl). discriminate Hnull.
  - vm_compute. split; [|reflexivity]. intros [[_ Hle] _]. by apply Hle.
Qed.

Lemma invariants_witness :
  (0 ≤ size set100_buffer ≤ capacity set100_buffer ∧
   (capacity set100_buffer ≠ 0 → buf_ set100_buffer ≠ 0)) ∧
  capacity set100_buffer < two64.
Proof.
  apply invariants_hold.
  apply (@reach_call int32 granting (@OpSafeSet int32 100 42) empty_memory empty_buffer
           (mkState set100_memory set100_buffer)).
  - apply (@reach_construct int32 granting the_pool 0 nothing empty_buffer
             empty_memory).
    + unfold u64, two64. lia.
    + reflexivity.
  - split; [unfold args_u64, u64, two64; lia | vm_compute; reflexivity].
  - vm_compute. reflexivity.
Defined.

(** *** C3 *)

(** C3 fails on a freshly cleared buffer: [reserve(0)] with
    [0 <= capacity = 0] fails fatally, [data] being null. *)
Lemma reserve_within_capacity_counterexample :
  run clear three_memory three_buffer
  = Ok (tt, mkState cleared_memory cleared_buffer) ∧
  0 ≤ capacity cleared_buffer ∧
  run (reserve 0) cleared_memory cleared_buffer = Fatal NullBuffer.
Proof. vm_compute. repeat split; congruence. Qed.

Lemma reserve_within_capacity_witness :
  run (reserve 2) three_memory three_buffer
  = Ok (tt, mkState three_memory three_buffer) ∧
  run (reserve 0) cleared_memory cleared_buffer = Fatal NullBuffer.
Proof.
  split.
  - apply (reserve_within_capacity 2 three_memory three_buffer);
      [simpl; lia | simpl; lia].
  - apply (reserve_within_capacity 0 cleared_memory cleared_buffer);
      [simpl; lia | reflexivity].
Defined.

(** *** C4 *)

(** C4 fails for a target within the capacity: on the view of the three
    elements 7, 8, 9, [reserve(2)] returns and changes nothing. *)
Lemma reserve_on_aliasing_buffer_counterexample :
  wrap (Some buffer_789) = Ok view_789 ∧
  aliasing view_789 ∧
  run (reserve 2) external_789 view_789
  = Ok (tt, mkState external_789 view_789).
Proof. vm_compute. repeat split; congruence. Qed.

(** End-to-end scenario 4: [reserve(10)] on the view is fatal. *)
Lemma reserve_on_aliasing_buffer_witness :
  run (reserve 10) external_789 view_789 = Fatal ReferencedBuffer ∧
  run (append_value 1) external_789 view_789 = Fatal ReferencedBuffer.
Proof.
  assert (aliasing view_789) as Halias by (unfold aliasing; simpl; congruence).
  destruct (reserve_on_aliasing_buffer external_789 view_789 Halias)
    as (Hreserve & _ & _ & _ & _ & _ & Happend & _).
  split.
  - apply Hreserve. simpl. lia.
  - apply Happend; [simpl; lia | vm_compute; reflexivity].
Defined.

(** *** C5 *)

(** C5 fails when the byte size wraps around: [resize(2^62)] on an empty
    buffer of [int32_t] asks the pool for [4 * 2^62 mod 2^64 = 0] bytes,
    zero-fills 0 bytes and returns with [length = capacity = 2^62]; there
    is no element 0, let alone a zero one. *)
Lemma resize_counterexample :
  owning empty_buffer ∧
  size empty_buffer < 4611686018427387904 ∧
  match run (resize 4611686018427387904) empty_memory empty_buffer with
  | Ok (_, s') =>
      size (this s') = 4611686018427387904 ∧
      element (world s') (this s') 0 ≠ Some (Some 0)
  | _ => False
  end.
Proof. vm_compute. repeat split; congruence. Qed.

(** End-to-end scenario 2: [resize(10)] on an empty buffer; all ten
    elements read as 0. *)
Lemma resize_witness :
  ∃ s', run (resize 10) empty_memory empty_buffer = Ok (tt, s') ∧
        size (this s') = 10 ∧
        ∀ i, 0 ≤ i < 10 → element (world s') (this s') i = Some (Some 0).
Proof.
  assert (u64 10) as U10 by (unfold u64, two64; lia).
  assert (Z.pos sizeofT * 10 < two64) as Hfit by (vm_compute; reflexivity).
  assert (0 ≤ size_ empty_buffer ≤ capacity_ empty_buffer) as Hinv
    by (simpl; lia).
  destruct (resize_spec 10 empty_memory empty_buffer U10 Hfit Hinv)
    as [Hpost Hreturns].
  destruct Hreturns as [s' Hrun];
    [reflexivity | exact backed_empty | simpl; lia
    | intros _; apply granting_grants |].
  exists s'. split; [exact Hrun|].
  destruct (Hpost s' Hrun) as (_ & Hsize & Hzero & _).
  split; [exact Hsize | exact Hzero].
Defined.

(** *** C6 *)

(** C6 fails when the byte size of the new capacity wraps around:
    [safeSet(2^62 - 1, 42)] on an empty buffer of [int32_t] asks for the
    capacity [2^62], whose byte size is [4 * 2^62 = 0 mod 2^64]; the pool
    grants a block of 0 bytes, the check of [reserve] passes, and
    [buf_[offset] = value] writes outside the block: nothing is written at
    [offset] and the call does not return. *)
Lemma safeSet_counterexample :
  owning empty_buffer ∧ backed empty_memory empty_buffer ∧
  u64 4611686018427387903 ∧ u64 (capacity_ empty_buffer) ∧
  growth_policy (capacity_ empty_buffer) < two64 ∧
  grants empty_memory (sizeInBytes 4611686018427387904) ∧
  run (safeSet 4611686018427387903 42) empty_memory empty_buffer = Undefined.
Proof.
  split; [reflexivity|]. split; [exact backed_empty|].
  split; [unfold u64, two64; lia|]. split; [unfold u64, two64; simpl; lia|].
  split; [vm_compute; reflexivity|]. split; [apply granting_grants|].
  eapply (@safeSet_outside int32 granting 4611686018427387903 42
            empty_memory empty_buffer _ []).
  - simpl. lia.
  - vm_compute. reflexivity.
  - vm_compute. reflexivity.
  - apply Nat.le_0_l.
Qed.

(** End-to-end scenario 3: [safeSet(100, 42)] on an empty buffer. *)
Lemma safeSet_witness :
  (∃ s', run (safeSet 100 42) empty_memory empty_buffer = Ok (tt, s')) ∧
  size set100_buffer = 101 ∧
  at_ 100 (mkState set100_memory set100_buffer)
  = Ok (Some 42, mkState set100_memory set100_buffer) ∧
  101 ≤ capacity set100_buffer.
Proof.
  assert (u64 100 ∧ u64 (capacity_ empty_buffer)) as [U100 U0]
    by (unfold u64, two64; simpl; lia).
  assert (growth_policy (capacity_ empty_buffer) < two64) as Hg
    by (vm_compute; reflexivity).
  assert (run (safeSet 100 42) empty_memory empty_buffer
          = Ok (tt, mkState set100_memory set100_buffer)) as Hrun
    by (vm_compute; reflexivity).
  destruct (@safeSet_spec int32 granting 100 42 empty_memory empty_buffer
              U100 U0 Hg) as [Hpost Hreturns].
  split.
  - apply Hreturns; [reflexivity | exact backed_empty |].
    intros _. split; [vm_compute; reflexivity | apply granting_grants].
  - destruct (Hpost _ Hrun) as (_ & _ & _ & _ & _ & Hscenario).
    exact (Hscenario eq_refl eq_refl).
Defined.

(** *** C7 *)

(** C7 fails in the direction "only if": with enough elements in the other
    buffer, [append] still fails fatally when [reserve] does -- on a buffer
    in aliasing mode that would have to grow, and on a cleared buffer,
    whose [data] is null. It fails in the direction "if" when the sum
    [otherOffset + count] wraps around: with [otherOffset = count = 2^63]
    the sum is [0 mod 2^64], the check passes on a source of three
    elements, [reserve(0)] has nothing to do, the byte size of the copy is
    [4 * 2^63 = 0 mod 2^64], and the call returns, with the length 0. *)
Lemma append_from_buffer_counterexample :
  (0 + 2 ≤ size two_buffer ∧
   run (append 2 two_buffer 0 2) two_memory view_789 = Fatal ReferencedBuffer) ∧
  (0 + 0 ≤ size two_buffer ∧
   run (append 0 two_buffer 0 0) two_memory cleared_buffer = Fatal NullBuffer) ∧
  (size view_789 < 9223372036854775808 + 9223372036854775808 ∧
   u64 9223372036854775808 ∧
   run (append 9223372036854775808 view_789
          9223372036854775808 9223372036854775808) two_memory two_buffer
   = Ok (tt, mkState two_memory (set_size_ 0 two_buffer))).
Proof. vm_compute. repeat split; congruence. Qed.

(** End-to-end scenario 5: [append(2, src, 0, 3)] into a buffer of length 2
    and capacity 2, [src] viewing 7, 8, 9. *)
Lemma append_from_buffer_witness :
  run (append 2 view_789 2 3) two_memory two_buffer = Fatal SourceUnderflow ∧
  ∃ s', run (append 2 view_789 0 3) two_memory two_buffer = Ok (tt, s') ∧
        5 ≤ capacity (this s') ∧ size (this s') = 5 ∧
        element (world s') (this s') 2 = Some (Some 7) ∧
        element (world s') (this s') 3 = Some (Some 8) ∧
        element (world s') (this s') 4 = Some (Some 9).
Proof.
  assert (u64 0 ∧ u64 2 ∧ u64 3) as (U0 & U2 & U3) by (unfold u64, two64; lia).
  split.
  - destruct (append_from_buffer 2 view_789 2 3 two_memory two_buffer U2 U2 U3)
      as (_ & Hfatal & _).
    apply Hfatal; [vm_compute; reflexivity | simpl; lia].
  - destruct (append_from_buffer 2 view_789 0 3 two_memory two_buffer U2 U0 U3)
      as (_ & _ & _ & Hcopy & Hreturns).
    destruct Hreturns as [s' Hrun];
      [ simpl; lia | vm_compute; reflexivity | vm_compute; reflexivity
      | simpl; lia | reflexivity
      | exact backed_two | simpl; lia | intros _; apply granting_grants
      | simpl; lia | simpl; lia
      | exists [Some 7; Some 8; Some 9]; split; [reflexivity | simpl; lia] |].
    exists s'. split; [exact Hrun|].
    destruct (Hcopy s' Hrun) as (_ & Hcap & Hsize & Helem);
      [vm_compute; reflexivity | simpl; lia | simpl; lia |].
    split; [exact Hcap|]. split; [exact Hsize|].
    split; [|split].
    + apply (Helem 0); [lia | reflexivity].
    + apply (Helem 1); [lia | reflexivity].
    + apply (Helem 2); [lia | reflexivity].
Defined.

(** *** C9 *)

(** C9 fails when the byte size wraps around: on a buffer of one
    [int32_t], [extend(3074457345618258601)] requests the capacity [2^62],
    whose byte size is [0 mod 2^64]; the block is reallocated to 0 bytes and
    the element 0 is lost. *)
Lemma extend_counterexample :
  owning one_buffer ∧
  element one_memory one_buffer 0 = Some (Some 0) ∧
  match run (extend 3074457345618258601) one_memory one_buffer with
  | Ok (_, s') =>
      size (this s') = 1 ∧ capacity (this s') = 4611686018427387904 ∧
      element (world s') (this s') 0 ≠ Some (Some 0)
  | _ => False
  end.
Proof. vm_compute. repeat split; congruence. Qed.

Lemma extend_witness :
  ∃ s', run (extend 5) three_memory three_buffer = Ok (tt, s') ∧
        size (this s') = 3 ∧
        capacity (this s') = growth_policy (3 + 5) ∧
        element (world s') (this s') 2 = Some (Some 0).
Proof.
  assert (u64 5 ∧ u64 (capacity_ three_buffer)) as [U5 U3]
    by (unfold u64, two64; simpl; lia).
  assert (0 ≤ size_ three_buffer ≤ capacity_ three_buffer) as Hinv
    by (simpl; lia).
  destruct (extend_frame 5 three_memory three_buffer U5 Hinv U3 (λ _, eq_refl))
    as [Hpost Hreturns].
  destruct Hreturns as [s' Hrun];
    [reflexivity | exact backed_three | intros _; apply granting_grants |].
  exists s'. split; [exact Hrun|].
  destruct (Hpost s' Hrun) as (Hsize & _ & _ & Hkeep & _ & Hgrow).
  split; [exact Hsize|]. split.
  - apply Hgrow. simpl. lia.
  - apply Hkeep; [simpl; lia | reflexivity].
Defined.

(** *** C10 *)

Lemma clear_idempotent_witness :
  run clear cleared_memory cleared_buffer
  = Ok (tt, mkState cleared_memory cleared_buffer) ∧
  destroy cleared_buffer cleared_memory = Ok cleared_memory ∧
  calls cleared_memory = Free the_pool 1 12 :: calls three_memory.
Proof.
  destruct (clear_idempotent three_memory three_buffer
              (mkState cleared_memory cleared_buffer) eq_refl)
    as (_ & _ & _ & Hclear & Hdestroy & _).
  split; [apply Hclear|]. split; [apply Hdestroy | reflexivity].
Defined.

End Examples.

(** ** Further properties of the member functions *)

Section FurtherProperties.

Context `{Element} `{MemoryPool}.

Implicit Types (w : World) (b : DataBuffer) (s : State).

Ltac read_this := rewrite (bind_step _ _ _ _ _ (get_Ok _)); simpl.

(** *** [at] and [operator[]] *)

Lemma load_Ok p s c s' :
  load p s = Ok (c, s') ↔ s' = s ∧ pointee (world s) p 0 = Some c.
Proof.
  unfold load, pointee, ptr_add. rewrite Z.add_0_r. destruct p as [a k]. simpl.
  destruct (mem_read _ _ _) as [[|c' [|??]]|]; split;
    try done; try (by intros [_ ?]).
  - by intros [= <- <-].
  - by intros [-> [= <-]].
Qed.

(** X1. [at(i)] fails fatally ("Accessing index out of range") whenever [i
    >= length], whatever the memory holds; for [i < length] it behaves as
    [operator[](i)]; and when it returns it has read the element [i] of the
    storage, with [i < length], and has changed neither the object nor the
    memory. *)
Theorem at_checked i w b :
  (size_ b ≤ i → run (at_ i) w b = Fatal OutOfRange) ∧
  (i < size_ b → run (at_ i) w b = run (subscript i) w b) ∧
  (∀ c s', run (at_ i) w b = Ok (c, s') →
     s' = mkState w b ∧ i < size_ b ∧ element w b i = Some c).
Proof.
  unfold run, at_, subscript. split; [|split].
  - intros Hi. read_this. apply bind_Fatal. apply check_false. lia.
  - intros Hi. read_this.
    by rewrite (bind_step _ _ _ _ _ (check_true _ OutOfRange (mkState w b) Hi)).
  - intros c s'. rewrite bind_Ok. intros (b0 & s0 & [= <- <-] & Hr).
    apply bind_Ok in Hr as ([] & s1 & Hchk & Hload).
    apply check_Ok in Hchk as [Hi ->].
    apply load_Ok in Hload as [-> Hc]. simpl in *.
    split; [done|]. split; [done|].
    unfold element. unfold pointee, ptr_add in Hc. simpl in Hc.
    by rewrite Z.add_0_r in Hc.
Qed.

(** *** Construction and destruction *)

Lemma wrap64_wrap64 n : wrap64 (1 * sizeInBytes n) = sizeInBytes n.
Proof. rewrite Z.mul_1_l. apply wrap64_small, wrap64_u64. Qed.

Lemma construct_Ok pool n w b w' :
  construct pool n w = Ok (b, w') →
  pool ≠ 0 ∧
  (pool_ b = pool ∧ veloxRef_ b = None ∧ size_ b = n ∧ capacity_ b = n) ∧
  calls w' = AllocateZeroFilled pool 1 (sizeInBytes n) (buf_ b) :: calls w ∧
  ((buf_ b = 0 ∧ n = 0 ∧ mem w' = mem w ∧ ¬ grants w (sizeInBytes n)) ∨
   (buf_ b ≠ 0 ∧ mem w !! buf_ b = None ∧ grants w (sizeInBytes n) ∧
    mem w' = <[buf_ b := replicate (cells (sizeInBytes n)) (Some zero)]> (mem w))).
Proof.
  unfold construct, allocateZeroFilled, grants. rewrite wrap64_wrap64.
  destruct (decide (pool = 0)); [done|].
  destruct (fresh_addr_spec (mem w)) as [Hf0 Hf].
  destruct (oracle (calls w) (sizeInBytes n)) eqn:Ho.
  - destruct (decide (0 ≠ 0 ∨ n = 0)) as [[?| ->]|]; [done| |done].
    intros [= <- <-]. simpl. repeat split; try done.
    left. repeat split; try done. by intros ?.
  - rewrite decide_True by auto. intros [= <- <-]. simpl.
    repeat split; try done. right. by repeat split.
  - rewrite decide_True by auto. intros [= <- <-]. simpl.
    repeat split; try done. right. by repeat split.
Qed.

(** X2. For a 64-bit [n] whose byte size [sizeof(T) * n] is below [2^64] and
    a pool that is not null: [DataBuffer(pool, n)] that returns is in owning
    mode on [pool] with [length = capacity = n]; [at(i)] reads zero for
    every [i < n]; it has made one pool call, [allocateZeroFilled(1,
    sizeInBytes(n))], and has left every block that was there untouched. It
    fails fatally exactly when [n] is not 0 and the pool answers null; when
    [n = 0] or the pool grants the request, it returns. *)
Theorem construct_spec pool n w :
  u64 n → Z.pos sizeofT * n < two64 → pool ≠ 0 →
  (∀ b w', construct pool n w = Ok (b, w') →
     pool_ b = pool ∧ owning b ∧ size b = n ∧ capacity b = n ∧
     (∀ i, 0 ≤ i < n → run (at_ i) w' b = Ok (Some zero, mkState w' b)) ∧
     (∀ q, is_Some (mem w !! q) → mem w' !! q = mem w !! q) ∧
     calls w' = AllocateZeroFilled pool 1 (sizeInBytes n) (buf_ b) :: calls w) ∧
  (construct pool n w = Fatal AllocationFailed ↔
   n ≠ 0 ∧ ¬ grants w (sizeInBytes n)) ∧
  (n = 0 ∨ grants w (sizeInBytes n) → ∃ b w', construct pool n w = Ok (b, w')).
Proof.
  intros [Hn0 Hn] Hfit Hpool. split; [|split].
  - intros b w' Hc.
    apply construct_Ok in Hc as (_ & (Hp & Href & Hsize & Hcap) & Hcalls & Hmem).
    unfold owning, size, capacity.
    split; [done|]. split; [done|]. split; [done|]. split; [done|].
    split; [|split; [|done]].
    + intros i Hi. apply (at_element i (mkState w' b)); [|simpl; lia]. simpl.
      destruct Hmem as [(_ & -> & _)|(Hbuf & _ & _ & Hins)]; [lia|].
      apply element_Some. split; [done|]. split; [lia|].
      eexists. split; [rewrite Hins; apply lookup_insert_eq|].
      rewrite cells_sizeInBytes by lia. apply lookup_replicate_2. lia.
    + intros q [x Hq].
      destruct Hmem as [(_ & _ & -> & _)|(_ & Hfresh & _ & ->)]; [done|].
      rewrite lookup_insert_ne; [done | congruence].
  - unfold construct, allocateZeroFilled, grants. rewrite wrap64_wrap64.
    rewrite decide_False by done.
    destruct (fresh_addr_spec (mem w)) as [Hf0 _].
    destruct (oracle (calls w) (sizeInBytes n)).
    + destruct (decide (0 ≠ 0 ∨ n = 0)) as [[?| ->]|Hno]; [done|..].
      * split; [done | by intros [? _]].
      * split; [|done]. intros _. split; [|by intros ?]. intros ->. auto.
    + rewrite decide_True by auto. split; [done|]. intros [_ Hno].
      by destruct Hno.
    + rewrite decide_True by auto. split; [done|]. intros [_ Hno].
      by destruct Hno.
  - unfold construct, allocateZeroFilled, grants. rewrite wrap64_wrap64.
    rewrite decide_False by done.
    destruct (fresh_addr_spec (mem w)) as [Hf0 _].
    intros Hcase. destruct (oracle (calls w) (sizeInBytes n)).
    + destruct Hcase as [->|?]; [|done]. rewrite decide_True by auto. eauto.
    + rewrite decide_True by auto. eauto.
    + rewrite decide_True by auto. eauto.
Qed.

(** The members and the memory as [clear] on a buffer in owning mode with
    data leaves them. *)
Lemma clear_owning w b blk :
  owning b → buf_ b ≠ 0 → pool_ b ≠ 0 → mem w !! buf_ b = Some blk →
  run clear w b =
  Ok (tt, mkState
            (mkWorld (delete (buf_ b) (mem w))
               (Free (pool_ b) (buf_ b) (sizeInBytes (capacity_ b)) :: calls w))
            (set_buf_ 0 (set_capacity_ 0 (set_size_ 0 b)))).
Proof.
  intros Hown Hb Hpool Hblk. unfold run, clear. read_this.
  rewrite decide_True by done.
  unfold mbind, M_bind, lift, free. simpl.
  rewrite decide_False by done. by rewrite Hblk.
Qed.

(** X3. When [DataBuffer(pool, n)] has returned, the destructor run right
    after it returns too and the memory is as it was before the
    construction: the block the constructor obtained is freed, once, with
    the byte size [sizeInBytes(n)] it was allocated with; when the data
    pointer is null (the pool answered null for [n = 0]) the destructor does
    not call the pool. *)
Theorem construct_destroy pool n w b w' :
  construct pool n w = Ok (b, w') →
  ∃ w'', destroy b w' = Ok w'' ∧ mem w'' = mem w ∧
    calls w'' =
      (if decide (buf_ b = 0) then []
       else [Free pool (buf_ b) (sizeInBytes n)]) ++
      AllocateZeroFilled pool 1 (sizeInBytes n) (buf_ b) :: calls w.
Proof.
  intros Hc.
  apply construct_Ok in Hc as (Hpool & (Hp & Href & Hsize & Hcap) & Hcalls & Hmem).
  destruct Hmem as [(Hbuf & _ & Hsame & _)|(Hbuf & Hfresh & _ & Hins)].
  - exists w'. rewrite destroy_null by done. rewrite decide_True by done.
    by repeat split.
  - unfold destroy.
    pose proof (clear_owning w' b (replicate (cells (sizeInBytes n)) (Some zero)))
      as Hclear.
    unfold run in Hclear. rewrite Hclear.
    + eexists. split; [reflexivity|]. simpl. rewrite decide_False by done.
      split.
      * rewrite Hins. by apply delete_insert_id.
      * by rewrite Hcalls, Hp, Hcap.
    + done.
    + done.
    + congruence.
    + rewrite Hins. apply lookup_insert_eq.
Qed.

(** X4. [clear()] on a buffer in owning mode whose data pointer is not null,
    when it returns: [length = capacity = 0] and [data = nullptr]; the pool
    has been called once, [free(data, sizeInBytes(capacity))]; the block is
    gone from the memory and every other block is as before; no element can
    be read any more, through the old members or the new ones. *)
Theorem clear_releases w b s' :
  owning b → buf_ b ≠ 0 →
  run clear w b = Ok (tt, s') →
  this s' = set_buf_ 0 (set_capacity_ 0 (set_size_ 0 b)) ∧
  calls (world s') =
    Free (pool_ b) (buf_ b) (sizeInBytes (capacity_ b)) :: calls w ∧
  mem (world s') !! buf_ b = None ∧
  (∀ q, q ≠ buf_ b → mem (world s') !! q = mem w !! q) ∧
  (∀ i, element (world s') b i = None ∧ element (world s') (this s') i = None).
Proof.
  intros Hown Hb Hrun. unfold run in Hrun.
  apply clear_Ok in Hrun as [Hthis [(_ & _ & Hfree)|[Hno _]]];
    [|exfalso; apply Hno; done].
  simpl in *. unfold free in Hfree.
  destruct (decide (pool_ b = 0)); [done|].
  destruct (mem w !! buf_ b) eqn:Hblk; [|done].
  injection Hfree as Hw. rewrite <- Hw, Hthis. simpl.
  split; [done|]. split; [done|].
  split; [apply lookup_delete_eq|].
  split; [intros q Hq; by apply lookup_delete_ne|].
  intros i. rewrite !element_eq. simpl. split.
  - destruct (decide (buf_ b ≠ 0 ∧ 0 ≤ i)); [|done].
    by rewrite lookup_delete_eq.
  - done.
Qed.

(** *** Views *)

(** X5. For a velox buffer at a non-null address whose [size()] bytes lie
    within its block: [wrap(buffer)] gives a view in aliasing mode with a
    null pool, [data = buffer->as<T>()] and [length = capacity =
    floor(size() / sizeof(T))] -- trailing bytes that do not make an element
    are outside the view --, and [at(i)] on the view reads the element [i]
    of the buffer for every [i < length]. [wrap] of a null [BufferPtr] is
    undefined behaviour. *)
Theorem wrap_view r w blk :
  0 ≤ buffer_size r → buffer_as r ≠ 0 →
  mem w !! buffer_as r = Some blk → (cells (buffer_size r) ≤ length blk)%nat →
  wrap None = Undefined ∧
  ∃ b, wrap (Some r) = Ok b ∧ aliasing b ∧ pool_ b = 0 ∧
       buf_ b = buffer_as r ∧ size b = capacity b ∧
       Z.pos sizeofT * size b ≤ buffer_size r < Z.pos sizeofT * (size b + 1) ∧
       ∀ i, 0 ≤ i < size b →
         ∃ c, blk !! Z.to_nat i = Some c ∧
              run (at_ i) w b = Ok (c, mkState w b).
Proof.
  intros Hsz Has Hblk Hlen. split; [done|].
  eexists. split; [reflexivity|]. unfold aliasing, size, capacity. simpl.
  split; [done|]. split; [done|]. split; [done|]. split; [done|].
  assert (buffer_size r
          = Z.pos sizeofT * (buffer_size r / Z.pos sizeofT)
            + buffer_size r mod Z.pos sizeofT) as Hdm
    by (apply Z.div_mod; lia).
  assert (0 ≤ buffer_size r mod Z.pos sizeofT < Z.pos sizeofT) as Hmod
    by (apply Z.mod_pos_bound; lia).
  split; [lia|].
  intros i Hi. unfold cells in Hlen.
  destruct (lookup_lt_is_Some_2 blk (Z.to_nat i)) as [c Hc]; [lia|].
  exists c. split; [done|].
  apply (at_element i (mkState w _)); [|simpl; lia]. simpl.
  apply element_Some. simpl. split; [done|]. split; [lia|]. eauto.
Qed.

(** X6. On a buffer in aliasing mode [clear()] returns, never calls the pool
    and leaves the whole memory, the aliased block included, as it was, and
    so does the destructor. The members become [length = 0], [capacity = 0],
    [data = nullptr] while the aliasing handle stays: afterwards
    [reserve(c)] is fatal for every [c] ("Can't reserve on a referenced
    buffer" for [c > 0], the null check for [c = 0]), so a cleared view
    cannot be filled again. *)
Theorem clear_aliasing w b :
  aliasing b →
  let b' := set_buf_ 0 (set_capacity_ 0 (set_size_ 0 b)) in
  run clear w b = Ok (tt, mkState w b') ∧
  destroy b w = Ok w ∧
  aliasing b' ∧
  (∀ c w2, 0 < c → run (reserve c) w2 b' = Fatal ReferencedBuffer) ∧
  (∀ c w2, c ≤ 0 → run (reserve c) w2 b' = Fatal NullBuffer).
Proof.
  intros Hb. simpl.
  assert (run clear w b
          = Ok (tt, mkState w (set_buf_ 0 (set_capacity_ 0 (set_size_ 0 b)))))
    as Hclear.
  { unfold run, clear. read_this.
    rewrite decide_False; [done|]. intros [? _]. by apply Hb. }
  split; [done|]. split.
  - unfold destroy. unfold run in Hclear. by rewrite Hclear.
  - split; [done|]. split.
    + intros c w2 Hc. by apply reserve_referenced.
    + intros c w2 Hc. by apply reserve_null.
Qed.

(** *** What no call does *)

Lemma reserve_calls c s s' :
  reserve c s = Ok (tt, s') →
  calls (world s') = calls (world s) ∨
  ∃ x, calls (world s') = x :: calls (world s).
Proof.
  intros Hr. apply reserve_Ok in Hr as [(_ & _ & ->)|(_ & _ & p & w' & Hreq & _ & ->)].
  - by left.
  - right. simpl. unfold reserve_request, allocate, reallocate in Hreq.
    repeat case_decide; try done;
      repeat (case_match; try done); simplify_eq; simpl; eauto.
Qed.

Lemma memcpy_calls dst src bytes w w' :
  memcpy dst src bytes w = Ok (tt, w') → calls w' = calls w.
Proof.
  intros Hc. apply memcpy_Ok in Hc as [[_ ->]|(_ & _ & cs & _ & Hw)]; [done|].
  by apply mem_write_Some in Hw as (_ & _ & ? & _).
Qed.

Lemma memset0_calls p bytes w w' :
  memset0 p bytes w = Ok (tt, w') → calls w' = calls w.
Proof.
  intros Hc. apply memset0_Ok in Hc as [[_ ->]|[_ Hw]]; [done|].
  by apply mem_write_Some in Hw as (_ & _ & ? & _).
Qed.

(** What [unsafeAppend] leaves alone. *)
Lemma unsafeAppend_effect offset src items s s' :
  unsafeAppend offset src items s = Ok (tt, s') →
  this s' = set_size_ (wrap64 (offset + items)) (this s) ∧
  calls (world s') = calls (world s).
Proof.
  intros Hu. apply unsafeAppend_Ok in Hu as [-> [[_ Hcp]|[_ ->]]]; [|done].
  split; [done|]. by apply memcpy_calls in Hcp.
Qed.

(** The members and the pool log across one call that returns. *)
Lemma call_effect op w b s' :
  run (call op) w b = Ok (tt, s') →
  pool_ (this s') = pool_ b ∧ veloxRef_ (this s') = veloxRef_ b ∧
  (keeps_storage op → capacity_ b ≤ capacity_ (this s')) ∧
  (calls (world s') = calls w ∨ ∃ x, calls (world s') = x :: calls w).
Proof.
  unfold run. intros Hrun.
  destruct op as [c|n|n|offset src srcOffset items|offset src items
                 |offset v|offset src items|v|]; simpl in *.
  - destruct (reserve_fields _ _ _ Hrun) as (? & ? & _ & Hcap).
    pose proof (reserve_calls _ _ _ Hrun). simpl in *.
    repeat split; try done. intros _. lia.
  - apply extend_Ok in Hrun as [[_ ->]|[_ Hr]]; [by repeat split; auto|].
    destruct (reserve_fields _ _ _ Hr) as (? & ? & _ & Hcap).
    pose proof (reserve_calls _ _ _ Hr). simpl in *.
    repeat split; try done. intros _. lia.
  - apply resize_Ok in Hrun as (s1 & Hr & Hrest).
    destruct (reserve_fields _ _ _ Hr) as (? & ? & _ & Hcap).
    pose proof (reserve_calls _ _ _ Hr) as Hcalls. simpl in *.
    destruct Hrest as [(_ & w2 & Hset & ->)|(_ & ->)]; simpl.
    + apply memset0_calls in Hset. rewrite Hset.
      repeat split; try done. intros _. lia.
    + repeat split; try done. intros _. lia.
  - apply append_Ok in Hrun as [_ Hrun].
    apply append_ptr_Ok in Hrun as (s1 & Hr & Hua).
    destruct (reserve_fields _ _ _ Hr) as (? & ? & _ & Hcap).
    pose proof (reserve_calls _ _ _ Hr) as Hcalls.
    apply unsafeAppend_effect in Hua as [-> ->]. simpl in *.
    repeat split; try done. intros _. lia.
  - apply append_ptr_Ok in Hrun as (s1 & Hr & Hua).
    destruct (reserve_fields _ _ _ Hr) as (? & ? & _ & Hcap).
    pose proof (reserve_calls _ _ _ Hr) as Hcalls.
    apply unsafeAppend_effect in Hua as [-> ->]. simpl in *.
    repeat split; try done. intros _. lia.
  - apply safeSet_Ok in Hrun as (s1 & w2 & Hres & Hw & ->).
    apply mem_write_Some in Hw as (_ & _ & Hcalls2 & _). simpl in *.
    assert (pool_ (this s1) = pool_ b ∧ veloxRef_ (this s1) = veloxRef_ b ∧
            capacity_ b ≤ capacity_ (this s1) ∧
            (calls (world s1) = calls w ∨ ∃ x, calls (world s1) = x :: calls w))
      as (? & ? & ? & ?).
    { destruct Hres as [[_ Hr]|[_ ->]]; [|simpl; repeat split; auto; lia].
      destruct (reserve_fields _ _ _ Hr) as (? & ? & _ & Hcap).
      pose proof (reserve_calls _ _ _ Hr). simpl in *.
      repeat split; try done. lia. }
    rewrite Hcalls2.
    destruct (decide (size_ (this s1) ≤ offset)); simpl; by repeat split.
  - apply extendAppend_Ok in Hrun as (s1 & Hres & Hua). simpl in Hres.
    apply unsafeAppend_effect in Hua as [-> ->]. simpl.
    destruct Hres as [[_ Hr]|[_ ->]]; [|simpl; repeat split; auto; lia].
    destruct (reserve_fields _ _ _ Hr) as (? & ? & _ & Hcap).
    pose proof (reserve_calls _ _ _ Hr). simpl in *.
    repeat split; try done. intros _. lia.
  - apply append_value_Ok in Hrun as (s1 & Hres & Hua). simpl in Hres.
    apply unsafeAppend_value_Ok in Hua as (w' & Hw & ->).
    apply mem_write_Some in Hw as (_ & _ & Hcalls2 & _). simpl. rewrite Hcalls2.
    destruct Hres as [[_ Hr]|[_ ->]]; [|simpl; repeat split; auto; lia].
    destruct (reserve_fields _ _ _ Hr) as (? & ? & _ & Hcap).
    pose proof (reserve_calls _ _ _ Hr). simpl in *.
    repeat split; try done. intros _. lia.
  - destruct (clear_Ok _ _ Hrun) as [-> Hworld]. simpl.
    repeat split; try done.
    destruct Hworld as [(_ & _ & Hfree)|[_ ->]]; [|by left].
    right. simpl in *. unfold free in Hfree.
    destruct (decide (pool_ b = 0)); [done|].
    destruct (mem w !! buf_ b); [|done].
    injection Hfree as <-. simpl. eauto.
Qed.

Lemma call_all_cons op ops s s' :
  call_all (op :: ops) s = Ok (tt, s') ↔
  ∃ s1, call op s = Ok (tt, s1) ∧ call_all ops s1 = Ok (tt, s').
Proof.
  simpl. rewrite bind_Ok. split.
  - intros ([] & s1 & ? & ?). eauto.
  - intros (s1 & ? & ?). exists tt, s1. done.
Qed.

(** X7. Across any sequence of calls of [reserve], [extend], [resize], the
    three forms of [append], [safeSet] and [extendAppend] that all return,
    the capacity at the end is at least the capacity at the start, whatever
    the arguments, also when the size arithmetic wraps around; only
    [clear()] takes the capacity down. *)
Theorem capacity_never_shrinks ops w b s' :
  Forall keeps_storage ops →
  run (call_all ops) w b = Ok (tt, s') →
  capacity b ≤ capacity (this s').
Proof.
  unfold run, capacity. intros Hops. revert w b.
  induction Hops as [|op ops Hop _ IH]; intros w b Hrun.
  - by injection Hrun as <-.
  - apply call_all_cons in Hrun as (s1 & Hcall & Hrest).
    destruct (call_effect op w b s1 Hcall) as (_ & _ & Hcap & _).
    specialize (Hcap Hop).
    destruct s1 as [w1 b1]. specialize (IH w1 b1 Hrest). simpl in *. lia.
Qed.

(** X8. No call changes the mode or the pool of an object: after any
    sequence of calls of [reserve], [extend], [resize], [append], [safeSet],
    [extendAppend] and [clear] that all return, the pool pointer and the
    aliased source are the ones the object started with; a buffer in owning
    mode stays in owning mode and a view stays a view. *)
Theorem mode_for_life ops w b s' :
  run (call_all ops) w b = Ok (tt, s') →
  pool_ (this s') = pool_ b ∧ veloxRef_ (this s') = veloxRef_ b ∧
  (owning (this s') ↔ owning b) ∧ (aliasing (this s') ↔ aliasing b).
Proof.
  unfold run. revert w b. induction ops as [|op ops IH]; intros w b Hrun.
  - by injection Hrun as <-.
  - apply call_all_cons in Hrun as (s1 & Hcall & Hrest).
    destruct (call_effect op w b s1 Hcall) as (Hp & Hr & _ & _).
    destruct s1 as [w1 b1]. destruct (IH w1 b1 Hrest) as (Hp' & Hr' & _).
    simpl in *. unfold owning, aliasing.
    rewrite Hp', Hr', Hp, Hr. done.
Qed.

(** X9. A call of [reserve], [extend], [resize], [append], [safeSet],
    [extendAppend] or [clear] makes at most one call of the pool: after a
    sequence of calls that all return, the log of the pool has grown by at
    most as many entries as there were calls, and the earlier entries are
    unchanged. *)
Theorem pool_calls_bounded ops w b s' :
  run (call_all ops) w b = Ok (tt, s') →
  ∃ new, calls (world s') = new ++ calls w ∧ (length new ≤ length ops)%nat.
Proof.
  unfold run. revert w b. induction ops as [|op ops IH]; intros w b Hrun.
  - injection Hrun as <-. by exists [].
  - apply call_all_cons in Hrun as (s1 & Hcall & Hrest).
    destruct (call_effect op w b s1 Hcall) as (_ & _ & _ & Hcalls).
    destruct s1 as [w1 b1]. destruct (IH w1 b1 Hrest) as (new & Hnew & Hlen).
    simpl in *. destruct Hcalls as [Heq|[x Heq]]; rewrite Heq in Hnew.
    + exists new. split; [done | lia].
    + exists (new ++ [x]). rewrite <- app_assoc. split; [done|].
      rewrite length_app. simpl. lia.
Qed.

(** *** [reserve] that grows *)

Lemma lookup_reallocated_new old ob nb i :
  (cells (Z.min ob nb) ≤ i < cells nb)%nat →
  reallocated old ob nb !! i = Some None.
Proof.
  intros Hi. unfold reallocated, cell in *.
  rewrite lookup_app_r by (rewrite length_take; lia).
  apply lookup_replicate_2. rewrite !length_take. lia.
Qed.

Lemma reserve_request_new c b w p w' :
  reserve_request c b w = Ok (p, w') → p ≠ 0 →
  calls w' =
    (if decide (buf_ b = 0)
     then Allocate (pool_ b) (sizeInBytes c) p
     else Reallocate (pool_ b) (buf_ b) (capacityInBytes b) (sizeInBytes c) p)
    :: calls w ∧
  ∃ blk, mem w' !! p = Some blk ∧
    ∀ i, (cells (Z.min (capacityInBytes b) (sizeInBytes c)) ≤ i
          < cells (sizeInBytes c))%nat →
         blk !! i = Some None.
Proof.
  unfold reserve_request. intros Hr Hp.
  destruct (decide (buf_ b = 0)) as [Hb|Hb].
  - unfold allocate in Hr. destruct (decide (pool_ b = 0)); [done|].
    destruct (oracle _ _); simplify_eq; simpl.
    all: split; [done|]; eexists; split; [apply lookup_insert_eq|];
      intros i Hi; apply lookup_replicate_2; lia.
  - unfold reallocate in Hr. destruct (decide (pool_ b = 0)); [done|].
    destruct (mem w !! buf_ b) as [old|]; [|done].
    destruct (oracle _ _); simplify_eq; simpl.
    all: split; [done|]; eexists; split; [apply lookup_insert_eq|];
      intros i Hi; by apply lookup_reallocated_new.
Qed.

(** X10. [reserve(c)] with [c] above the capacity and [sizeof(T) * c] below
    [2^64], when it returns: the buffer is in owning mode; the capacity is
    exactly [c], with no headroom; the length is unchanged; [data] is not
    null; the elements below the old capacity are as before, and the new
    ones, from the old capacity up to [c], are not initialised (never
    zero-filled); the pool has been called once, with
    [allocate(sizeInBytes(c))] when [data] was null and with
    [reallocate(data, capacityInBytes(), sizeInBytes(c))] otherwise. *)
Theorem reserve_growth c w b s' :
  0 ≤ capacity_ b < c → Z.pos sizeofT * c < two64 →
  run (reserve c) w b = Ok (tt, s') →
  owning b ∧ capacity (this s') = c ∧ size (this s') = size_ b ∧
  buf_ (this s') ≠ 0 ∧
  (∀ i x, 0 ≤ i < capacity_ b → element w b i = Some x →
          element (world s') (this s') i = Some x) ∧
  (∀ i, capacity_ b ≤ i < c → element (world s') (this s') i = Some None) ∧
  calls (world s') =
    (if decide (buf_ b = 0)
     then Allocate (pool_ b) (sizeInBytes c) (buf_ (this s'))
     else Reallocate (pool_ b) (buf_ b) (capacityInBytes b) (sizeInBytes c)
            (buf_ (this s')))
    :: calls w.
Proof.
  intros [Hc0 Hc] Hfit Hrun. unfold run, capacity, size in *.
  destruct (reserve_fields _ _ _ Hrun) as (_ & _ & Hsize & Hcap).
  destruct (reserve_grow _ _ _ Hrun) as (Hown & Hbuf & _ & _);
    [simpl; lia | done |].
  pose proof (reserve_keeps _ _ _ Hrun Hc0 (λ _, Hfit)) as Hkeep.
  simpl in *.
  split; [done|]. split; [lia|]. split; [done|]. split; [done|].
  split; [done|].
  apply reserve_Ok in Hrun as [(? & _)|(_ & _ & p & w' & Hreq & _ & ->)];
    [simpl in *; lia|].
  simpl in *.
  destruct (reserve_request_new _ _ _ _ _ Hreq Hbuf) as (Hcalls & blk & Hblk & Hnew).
  split; [|done].
  intros i Hi. apply element_Some. simpl. split; [done|]. split; [lia|].
  exists blk. split; [done|]. apply Hnew.
  unfold capacityInBytes.
  rewrite (sizeInBytes_small c) by lia.
  rewrite (sizeInBytes_small (capacity_ b)) by nia.
  rewrite Z.min_l by nia. unfold cells.
  rewrite !(Z.mul_comm (Z.pos sizeofT)), !Z.div_mul by lia. lia.
Qed.

(** *** [append(value)] *)

(** What [append(value)] leaves when it returns. *)
Lemma append_value_post v w b s' :
  0 ≤ size_ b ≤ capacity_ b → u64 (capacity_ b) →
  (capacity_ b ≤ size_ b →
   Z.pos sizeofT * growth_policy (capacity_ b) < two64) →
  run (append_value v) w b = Ok (tt, s') →
  size_ (this s') = size_ b + 1 ∧
  size_ (this s') ≤ capacity_ (this s') ∧
  capacity_ (this s') < two64 ∧
  capacity_ (this s') ≤ Z.max (capacity_ b) (growth_policy (size_ b)) ∧
  element (world s') (this s') (size_ b) = Some (Some v) ∧
  (∀ i x, 0 ≤ i < size_ b → element w b i = Some x →
          element (world s') (this s') i = Some x) ∧
  (size_ b < capacity_ b →
   capacity_ (this s') = capacity_ b ∧ buf_ (this s') = buf_ b ∧
   calls (world s') = calls w).
Proof.
  intros [Hs0 Hs] [Hc0 Hc] Hfit Hrun. unfold run in Hrun.
  apply append_value_Ok in Hrun as (s1 & Hres & Hua). simpl in Hres.
  apply unsafeAppend_value_Ok in Hua as (w2 & Hw & ->). simpl.
  pose proof (growth_policy_gt (capacity_ b) Hc0) as Hgt.
  assert (size_ (this s1) = size_ b ∧
          size_ b + 1 ≤ capacity_ (this s1) ∧ capacity_ (this s1) < two64 ∧
          capacity_ (this s1) ≤ Z.max (capacity_ b) (growth_policy (size_ b)) ∧
          (∀ i x, 0 ≤ i < size_ b → element w b i = Some x →
                  element (world s1) (this s1) i = Some x) ∧
          (size_ b < capacity_ b → s1 = mkState w b))
    as (Hsize & Hroom & Hc1 & Hbound & Hkeep & Hsame).
  { destruct (decide (capacity_ b ≤ size_ b)) as [Hfull|Hfree].
    - specialize (Hfit Hfull).
      assert (growth_policy (capacity_ b) < two64) by nia.
      rewrite growth_policy_wrap in Hres by lia.
      destruct Hres as [[_ Hr]|[? _]]; [|lia].
      destruct (reserve_fields _ _ _ Hr) as (_ & _ & Hsz & Hcp).
      pose proof (reserve_keeps _ _ _ Hr Hc0 (λ _, Hfit)) as Hk. simpl in *.
      assert (size_ b = capacity_ b) as Heq by lia.
      split; [done|]. split; [lia|]. split; [lia|]. split; [rewrite Heq; lia|].
      split; [|lia]. intros i x Hi Hx. apply Hk; [lia | done].
    - destruct Hres as [[? _]|[_ ->]]; [lia|]. simpl.
      repeat split; try done; lia. }
  rewrite Hsize in *.
  rewrite (wrap64_small (size_ b + 1)) by (unfold u64; lia).
  split; [done|]. split; [done|]. split; [done|]. split; [done|].
  split; [|split].
  - rewrite (element_buf _ _ (this s1)) by done.
    rewrite (element_write_in _ _ _ _ _ _ Hw) by (simpl; lia).
    by rewrite Z.sub_diag.
  - intros i x Hi Hx.
    rewrite (element_buf _ _ (this s1)) by done.
    rewrite (element_write_out _ _ _ _ (this s1) i Hw) by (simpl; lia).
    by apply Hkeep.
  - intros Hfree. rewrite (Hsame Hfree) in Hw |- *. simpl.
    apply mem_write_Some in Hw as (_ & _ & Hcalls & _). by repeat split.
Qed.

(** X11. On a buffer with [0 <= length <= capacity < 2^64], the byte size of
    [capacity + (capacity + 1) / 2 + 1] elements being below [2^64] when the
    buffer is full: [append(value)] that returns has pushed one element --
    the length is one more and within the capacity, [at(old length)] reads
    [value], and [at(i)] reads what it read before for every [i] below the
    old length. While there is room ([length < capacity]) it changes neither
    the capacity nor the data pointer and does not call the pool. *)
Theorem append_value_push v w b s' :
  0 ≤ size_ b ≤ capacity_ b → u64 (capacity_ b) →
  (capacity_ b ≤ size_ b →
   Z.pos sizeofT * growth_policy (capacity_ b) < two64) →
  run (append_value v) w b = Ok (tt, s') →
  size (this s') = size_ b + 1 ∧
  size (this s') ≤ capacity (this s') ∧
  at_ (size_ b) s' = Ok (Some v, s') ∧
  (∀ i x, 0 ≤ i < size_ b → run (at_ i) w b = Ok (x, mkState w b) →
          at_ i s' = Ok (x, s')) ∧
  (size_ b < capacity_ b →
   capacity (this s') = capacity_ b ∧ buf_ (this s') = buf_ b ∧
   calls (world s') = calls w).
Proof.
  intros Hinv Hc Hfit Hrun. unfold size, capacity.
  destruct (append_value_post v w b s' Hinv Hc Hfit Hrun)
    as (Hsize & Hroom & _ & _ & Hnew & Hkeep & Hsame).
  split; [done|]. split; [done|]. split; [|split; [|done]].
  - apply at_element; [done | lia].
  - intros i x Hi Hat. apply at_element; [|lia].
    apply Hkeep; [done|].
    unfold run, at_ in Hat. apply bind_Ok in Hat as (b0 & s0 & [= <- <-] & Hat).
    apply bind_Ok in Hat as ([] & s1 & Hchk & Hload).
    apply check_Ok in Hchk as [_ ->].
    apply load_Ok in Hload as [_ Hc']. simpl in Hc'.
    unfold element. unfold pointee, ptr_add in Hc'. simpl in Hc'.
    by rewrite Z.add_0_r in Hc'.
Qed.

Lemma growth_policy_mono m n : m ≤ n → growth_policy m ≤ growth_policy n.
Proof.
  intros ?. unfold growth_policy.
  assert ((m + 1) / 2 ≤ (n + 1) / 2) by (apply Z.div_le_mono; lia). lia.
Qed.

(** X12. A caller's loop [for (v : values) b.append(v)] on a buffer with [0
    <= length <= capacity < 2^64], the byte size of [m + (m + 1) / 2 + 1]
    elements being below [2^64] for [m = length + number of values]: when
    the calls return, the length has grown by the number of values and is
    within the capacity; the values are at the indices from the old length
    on, in order; the elements below the old length are as before. *)
Theorem append_values_spec values w b s' :
  0 ≤ size_ b ≤ capacity_ b → u64 (capacity_ b) →
  Z.pos sizeofT * growth_policy (size_ b + Z.of_nat (length values)) < two64 →
  run (append_values values) w b = Ok (tt, s') →
  size (this s') = size_ b + Z.of_nat (length values) ∧
  size (this s') ≤ capacity (this s') ∧
  (∀ k v, values !! k = Some v →
          element (world s') (this s') (size_ b + Z.of_nat k) = Some (Some v)) ∧
  (∀ i x, 0 ≤ i < size_ b → element w b i = Some x →
          element (world s') (this s') i = Some x).
Proof.
  unfold run, size, capacity. revert w b.
  induction values as [|v values IH]; intros w b Hinv Hc Hfit Hrun.
  - injection Hrun as <-. simpl. repeat split; try done; try lia.
  - simpl in Hrun. apply bind_Ok in Hrun as ([] & s1 & Hone & Hrest).
    assert (capacity_ b ≤ size_ b →
            Z.pos sizeofT * growth_policy (capacity_ b) < two64) as Hfit1.
    { intros Hfull.
      pose proof (growth_policy_mono (capacity_ b)
                    (size_ b + Z.of_nat (length (v :: values)))) as Hm.
      simpl length in *. nia. }
    destruct (append_value_post v w b s1 Hinv Hc Hfit1 Hone)
      as (Hsize & Hroom & Hc1 & _ & Hnew & Hkeep & _).
    destruct s1 as [w1 b1]. simpl in *.
    destruct (IH w1 b1) as (Hsize' & Hroom' & Hvals & Hkeep');
      [lia | unfold u64; lia
      | rewrite Hsize; replace (size_ b + 1 + Z.of_nat (length values))
          with (size_ b + Z.pos (Pos.of_succ_nat (length values))) by lia;
        done
      | done |].
    split; [lia|]. split; [done|]. split.
    + intros [|k] v' Hv'; simpl in Hv'.
      * injection Hv' as <-. rewrite Z.add_0_r.
        apply Hkeep'; [lia | done].
      * replace (size_ b + Z.of_nat (S k)) with (size_ b1 + Z.of_nat k) by lia.
        by apply Hvals.
    + intros i x Hi Hx. apply Hkeep'; [lia|]. by apply Hkeep.
Qed.

(** *** [safeSet] and [operator[]] *)

Lemma reserve_new_cells c s s' :
  reserve c s = Ok (tt, s') →
  0 ≤ capacity_ (this s) < c → Z.pos sizeofT * c < two64 →
  ∀ i, capacity_ (this s) ≤ i < c →
       element (world s') (this s') i = Some None.
Proof.
  intros Hrun [Hc0 Hc] Hfit i Hi.
  destruct (reserve_grow _ _ _ Hrun) as (_ & Hbuf & _ & _); [lia | done |].
  apply reserve_Ok in Hrun as [(? & _)|(_ & _ & p & w' & Hreq & _ & ->)]; [lia|].
  simpl in *.
  destruct (reserve_request_new _ _ _ _ _ Hreq Hbuf) as (_ & blk & Hblk & Hnew).
  apply element_Some. simpl. split; [done|]. split; [lia|].
  exists blk. split; [done|]. apply Hnew.
  unfold capacityInBytes.
  rewrite (sizeInBytes_small c) by lia.
  rewrite (sizeInBytes_small (capacity_ (this s))) by nia.
  rewrite Z.min_l by nia. unfold cells.
  rewrite !(Z.mul_comm (Z.pos sizeofT)), !Z.div_mul by lia. lia.
Qed.

(** X13. For 64-bit [offset] and capacity, the byte size of the capacity
    requested being below [2^64] when [offset >= capacity]: [safeSet(offset,
    value)] that returns has changed no element but the one at [offset] --
    the elements below the old capacity are as before, and the elements a
    growth has added, also those between the old length and [offset], are
    not initialised (never zero-filled). With [offset] below the capacity it
    neither calls the pool nor moves the data. *)
Theorem safeSet_frame offset v w b s' :
  u64 offset → u64 (capacity_ b) →
  (capacity_ b ≤ offset →
   Z.pos sizeofT * Z.max (offset + 1) (growth_policy (capacity_ b)) < two64) →
  run (safeSet offset v) w b = Ok (tt, s') →
  (∀ i x, 0 ≤ i < capacity_ b → i ≠ offset → element w b i = Some x →
          element (world s') (this s') i = Some x) ∧
  (∀ i, capacity_ b ≤ i < capacity (this s') → i ≠ offset →
        element (world s') (this s') i = Some None) ∧
  (offset < capacity_ b →
   buf_ (this s') = buf_ b ∧ calls (world s') = calls w).
Proof.
  intros [Ho0 Ho] [Hc0 Hc] Hfit Hrun. unfold run, capacity in *.
  apply safeSet_Ok in Hrun as (s1 & w2 & Hres & Hw & ->). simpl in *.
  pose proof (growth_policy_gt (capacity_ b) Hc0) as Hgt.
  set (b' := if decide (size_ (this s1) ≤ offset)
             then set_size_ (wrap64 (offset + 1)) (this s1) else this s1).
  assert (buf_ b' = buf_ (this s1) ∧ capacity_ b' = capacity_ (this s1))
    as [Hbuf' Hcap'] by (subst b'; by destruct (decide (size_ (this s1) ≤ offset))).
  rewrite Hcap'.
  assert (∀ i, i ≠ offset →
            element w2 b' i = element (world s1) (this s1) i) as Hout.
  { intros i Hi. rewrite (element_buf _ _ (this s1)) by done.
    apply (element_write_out _ _ _ _ _ _ Hw). simpl. lia. }
  destruct (decide (capacity_ b ≤ offset)) as [Hgrow|Hstay].
  - specialize (Hfit Hgrow).
    assert (Z.max (offset + 1) (growth_policy (capacity_ b)) < two64) by nia.
    destruct Hres as [[_ Hr]|[? _]]; [|lia].
    rewrite growth_policy_wrap in Hr by lia.
    rewrite (wrap64_small (offset + 1)) in Hr by (unfold u64; lia).
    destruct (reserve_fields _ _ _ Hr) as (_ & _ & _ & Hcap).
    pose proof (reserve_keeps _ _ _ Hr Hc0 (λ _, Hfit)) as Hkeep.
    pose proof (reserve_new_cells _ _ _ Hr) as Hnew. simpl in *.
    split; [|split; [|lia]].
    + intros i x Hi Hne Hx. rewrite Hout by done. by apply Hkeep.
    + intros i Hi Hne. rewrite Hout by done. apply Hnew; [lia | done | lia].
  - destruct Hres as [[? _]|[_ ->]]; [lia|]. simpl in *.
    split; [|split].
    + intros i x Hi Hne Hx. by rewrite Hout.
    + intros i Hi. lia.
    + intros _. split; [done|].
      by apply mem_write_Some in Hw as (_ & _ & ? & _).
Qed.

Lemma subscript_set_Ok i v s s' :
  subscript_set i v s = Ok (tt, s') ↔
  ∃ w', mem_write (mkPtr (buf_ (this s)) i) [Some v] (world s) = Some w' ∧
        s' = mkState w' (this s).
Proof.
  unfold subscript_set, ptr_add, data. simpl. rewrite Z.add_0_l. split.
  - rewrite bind_Ok. intros (b & s0 & [= <- <-] & Hst).
    by apply store_Ok in Hst.
  - intros (w' & Hw & ->). read_this.
    unfold store, lift. by rewrite Hw.
Qed.

(** X14. An assignment through [operator[]], [b[i] = value], that has
    defined behaviour: [operator[](i)] reads [value] back, every other
    element is as before, no member changes and the pool is not called. In
    particular the length does not advance: for [i >= length], [at(i)] is
    still fatal after the assignment. *)
Theorem subscript_set_spec i v w b s' :
  run (subscript_set i v) w b = Ok (tt, s') →
  this s' = b ∧ calls (world s') = calls w ∧
  subscript i s' = Ok (Some v, s') ∧
  (∀ j, j ≠ i → element (world s') b j = element w b j) ∧
  (size_ b ≤ i → at_ i s' = Fatal OutOfRange).
Proof.
  unfold run. intros Hrun.
  apply subscript_set_Ok in Hrun as (w' & Hw & ->). simpl in *.
  pose proof (mem_write_Some _ _ _ _ Hw) as (_ & _ & Hcalls & _).
  split; [done|]. split; [done|]. split; [|split].
  - unfold subscript. read_this. apply load_Ok. split; [done|]. simpl.
    pose proof (element_write_in _ _ b _ _ i Hw) as Hin. simpl in Hin.
    rewrite Z.sub_diag in Hin. unfold element in Hin.
    unfold pointee, ptr_add. simpl. rewrite Z.add_0_r.
    apply Hin. lia.
  - intros j Hj. apply (element_write_out _ _ _ _ _ _ Hw). simpl. lia.
  - intros Hi. unfold at_. read_this. apply bind_Fatal.
    apply check_false. lia.
Qed.

(** X15. With [0 <= offset < length <= capacity], [safeSet(offset, value)]
    is the assignment [b[offset] = value]: the same outcome, the same
    memory, the same members. *)
Theorem safeSet_in_place offset v w b :
  0 ≤ offset < size_ b → size_ b ≤ capacity_ b →
  run (safeSet offset v) w b = run (subscript_set offset v) w b.
Proof.
  intros [Ho0 Ho] Hs.
  unfold run, safeSet, subscript_set, mbind, M_bind, get, store, lift,
    ptr_add, data.
  simpl. rewrite decide_False by lia. simpl.
  rewrite Z.add_0_l. rewrite (decide_False (P := size_ b ≤ offset)) by lia.
  by destruct (mem_write {| base := buf_ b; index := offset |} [Some v] w).
Qed.

(** *** The unchecked and the pointer appends *)

Lemma pointee_Some w p i x :
  pointee w p i = Some x ↔
  base p ≠ 0 ∧ 0 ≤ index p + i ∧
  ∃ blk, mem w !! base p = Some blk ∧
         blk !! Z.to_nat (index p + i) = Some x.
Proof.
  change (pointee w p i)
    with (element w (mkDataBuffer 0 None (base p) 0 0) (index p + i)).
  apply element_Some.
Qed.

(** What [unsafeAppend(offset, src, items)] leaves when it returns. *)
Lemma unsafeAppend_post offset src items s s' :
  u64 offset → u64 items → offset + items < two64 →
  Z.pos sizeofT * items < two64 →
  unsafeAppend offset src items s = Ok (tt, s') →
  this s' = set_size_ (offset + items) (this s) ∧
  calls (world s') = calls (world s) ∧
  (∀ k x, 0 ≤ k < items → pointee (world s) src k = Some x →
          element (world s') (this s) (offset + k) = Some x) ∧
  (∀ i, ¬ (offset ≤ i < offset + items) →
        element (world s') (this s) i = element (world s) (this s) i) ∧
  (∀ q, q ≠ buf_ (this s) → mem (world s') !! q = mem (world s) !! q).
Proof.
  intros [Ho0 Ho] [Hi0 Hi] Hsum Hfit Hrun.
  destruct (unsafeAppend_effect _ _ _ _ _ Hrun) as [Hthis Hcalls].
  rewrite wrap64_small in Hthis by (unfold u64; lia).
  split; [done|]. split; [done|].
  apply unsafeAppend_Ok in Hrun as [_ [[Hpos Hcp]|[Hz Hw]]].
  - apply memcpy_Ok in Hcp. rewrite cells_sizeInBytes in Hcp by lia.
    destruct Hcp as [[? _]|(_ & _ & cs & Hrd & Hwr)]; [lia|].
    apply mem_read_Some in Hrd as (_ & Hsrc0 & blk & Hblk & Hlen & ->).
    unfold ptr_add, data in Hwr. simpl in Hwr. rewrite Z.add_0_l in Hwr.
    split; [|split].
    + intros k x Hk Hx.
      apply pointee_Some in Hx as (_ & _ & blk0 & Hblk0 & Hx).
      assert (blk0 = blk) as -> by congruence.
      rewrite (element_write_in _ _ _ _ _ _ Hwr)
        by (rewrite length_take, length_drop; lia).
      rewrite lookup_take_lt by lia. rewrite lookup_drop.
      rewrite <- Hx. f_equal. lia.
    + intros i Hi'. apply (element_write_out _ _ _ _ _ _ Hwr). simpl.
      rewrite length_take, length_drop. lia.
    + intros q Hq.
      apply mem_write_Some in Hwr as (_ & _ & _ & blk1 & _ & _ & ->).
      simpl. by rewrite lookup_insert_ne.
  - rewrite Hw. split; [intros; lia|]. done.
Qed.

(** X16. For 64-bit [offset] and [items] with [offset + items] and
    [sizeof(T) * items] below [2^64]: [unsafeAppend(offset, src, items)]
    that has defined behaviour sets the length to [offset + items] without
    looking at the capacity, copies the [items] elements of [src] to the
    indices from [offset] on, leaves every other element, the capacity and
    the data pointer alone and does not call the pool; and
    [unsafeAppend(src, items)] is the same call at [offset = length]. *)
Theorem unsafeAppend_spec offset src items w b :
  u64 offset → u64 items → offset + items < two64 →
  Z.pos sizeofT * items < two64 →
  (∀ s', run (unsafeAppend offset src items) w b = Ok (tt, s') →
     size (this s') = offset + items ∧
     capacity (this s') = capacity_ b ∧ buf_ (this s') = buf_ b ∧
     calls (world s') = calls w ∧
     (∀ k x, 0 ≤ k < items → pointee w src k = Some x →
             element (world s') (this s') (offset + k) = Some x) ∧
     (∀ i, ¬ (offset ≤ i < offset + items) →
           element (world s') (this s') i = element w b i)) ∧
  (offset = size_ b →
   run (unsafeAppend_end src items) w b = run (unsafeAppend offset src items) w b).
Proof.
  intros Ho Hi Hsum Hfit. split.
  - intros s' Hrun. unfold run in Hrun.
    destruct (unsafeAppend_post _ _ _ _ _ Ho Hi Hsum Hfit Hrun)
      as (Hthis & Hcalls & Hcopy & Hframe & _).
    rewrite Hthis. unfold size, capacity. simpl in *.
    do 4 (split; [done|]). split.
    + intros k x Hk Hx. rewrite (element_buf _ _ b) by done. by apply Hcopy.
    + intros i Hi'. rewrite (element_buf _ _ b) by done. by apply Hframe.
  - intros ->. unfold run, unsafeAppend_end, unsafeAppend.
    read_this. destruct (decide (0 < items)) as [Hpos|Hzero]; [done|].
    assert (items = 0) as -> by (destruct Hi; lia).
    rewrite Z.add_0_r, wrap64_small by done.
    unfold mbind, M_bind, mret, M_ret, modify. simpl. by destruct b.
Qed.

(** The copy of [reserve(t)] followed by [unsafeAppend(offset, src, items)],
    the shape of the pointer form of [append] and of [extendAppend]. *)
Lemma reserve_then_copy t offset src items w b s1 s' :
  u64 offset → u64 items → offset + items < two64 →
  Z.pos sizeofT * items < two64 →
  0 ≤ capacity_ b → (capacity_ b < t → Z.pos sizeofT * t < two64) →
  base src ≠ buf_ b →
  reserve t (mkState w b) = Ok (tt, s1) →
  unsafeAppend offset src items s1 = Ok (tt, s') →
  size_ (this s') = offset + items ∧
  capacity_ (this s') = Z.max (capacity_ b) t ∧
  (∀ k x, 0 ≤ k < items → pointee w src k = Some x →
          element (world s') (this s') (offset + k) = Some x) ∧
  (∀ i x, 0 ≤ i < capacity_ b → ¬ (offset ≤ i < offset + items) →
          element w b i = Some x →
          element (world s') (this s') i = Some x) ∧
  (t ≤ capacity_ b →
   buf_ (this s') = buf_ b ∧ calls (world s') = calls w).
Proof.
  intros Ho Hi Hsum Hfit Hc0 Hfit' Hsrc Hres Hua.
  destruct (reserve_fields _ _ _ Hres) as (_ & _ & _ & Hcap).
  pose proof (reserve_keeps _ _ _ Hres Hc0 Hfit') as Hkeep.
  pose proof (reserve_frame _ _ _ Hres Hc0 Hfit' (base src) Hsrc) as Hframe.
  destruct (unsafeAppend_post _ _ _ _ _ Ho Hi Hsum Hfit Hua)
    as (Hthis & Hcalls & Hcopy & Hout & _).
  simpl in *. rewrite Hthis. simpl.
  split; [done|]. split; [done|]. split; [|split].
  - intros k x Hk Hx. rewrite (element_buf _ _ (this s1)) by done.
    apply Hcopy; [done|].
    pose proof (proj1 (pointee_Some _ _ _ _) Hx) as (Hb & Hk0 & blk & Hblk & Hx').
    apply pointee_Some. split; [done|]. split; [done|].
    exists blk. split; [|done].
    destruct (Hframe (mk_is_Some _ _ Hblk)) as [_ ->]. done.
  - intros i x Hi' Hnot Hx. rewrite (element_buf _ _ (this s1)) by done.
    rewrite Hout by done. by apply Hkeep.
  - intros Hle.
    apply reserve_Ok in Hres as [(_ & _ & ->)|(? & _)]; [|simpl in *; lia].
    simpl in *. done.
Qed.

(** X17. For 64-bit [offset] and [items] with [sizeof(T) * (offset + items)]
    below [2^64], a capacity that is not negative and [src] pointing outside
    the storage of the buffer: the pointer form [append(offset, src, items)]
    that returns leaves the capacity [max(capacity, offset + items)], an
    exact fit without headroom, and the length [offset + items]; the [items]
    elements of [src] are at the indices from [offset] on; the other
    elements below the old capacity are as before; when the capacity
    sufficed, the pool has not been called and the data has not moved. *)
Theorem append_ptr_spec offset src items w b s' :
  u64 offset → u64 items →
  Z.pos sizeofT * (offset + items) < two64 →
  0 ≤ capacity_ b → base src ≠ buf_ b →
  run (append_ptr offset src items) w b = Ok (tt, s') →
  size (this s') = offset + items ∧
  capacity (this s') = Z.max (capacity_ b) (offset + items) ∧
  (∀ k x, 0 ≤ k < items → pointee w src k = Some x →
          element (world s') (this s') (offset + k) = Some x) ∧
  (∀ i x, 0 ≤ i < capacity_ b → ¬ (offset ≤ i < offset + items) →
          element w b i = Some x →
          element (world s') (this s') i = Some x) ∧
  (offset + items ≤ capacity_ b →
   buf_ (this s') = buf_ b ∧ calls (world s') = calls w).
Proof.
  intros Ho Hi Hfit Hc0 Hsrc Hrun. unfold run in Hrun.
  apply append_ptr_Ok in Hrun as (s1 & Hres & Hua).
  assert (u64 (offset + items)) as Hu
    by (apply fits_u64; [destruct Ho, Hi; lia | done]).
  rewrite (wrap64_small _ Hu) in Hres.
  apply (reserve_then_copy (offset + items) offset src items w b s1 s');
    try done; [apply Hu | destruct Ho, Hi; nia].
Qed.

(** X18. For 64-bit [offset], [items] and capacity with [sizeof(T) * (offset
    + items)] below [2^64], the byte size of [m + (m + 1) / 2 + 1] elements
    being below [2^64] for [m = offset + items] when [m] exceeds the
    capacity, and [src] pointing outside the storage of the buffer:
    [extendAppend(offset, src, items)] that returns does what the pointer
    form of [append] does to the length and to the elements; it differs in
    the capacity, which is left alone when it suffices and otherwise becomes
    [m + (m + 1) / 2 + 1]. *)
Theorem extendAppend_spec offset src items w b s' :
  u64 offset → u64 items → u64 (capacity_ b) →
  Z.pos sizeofT * (offset + items) < two64 →
  (capacity_ b < offset + items →
   Z.pos sizeofT * growth_policy (offset + items) < two64) →
  base src ≠ buf_ b →
  run (extendAppend offset src items) w b = Ok (tt, s') →
  size (this s') = offset + items ∧
  size (this s') ≤ capacity (this s') ∧
  capacity (this s') =
    (if decide (capacity_ b < offset + items)
     then growth_policy (offset + items) else capacity_ b) ∧
  (∀ k x, 0 ≤ k < items → pointee w src k = Some x →
          element (world s') (this s') (offset + k) = Some x) ∧
  (∀ i x, 0 ≤ i < capacity_ b → ¬ (offset ≤ i < offset + items) →
          element w b i = Some x →
          element (world s') (this s') i = Some x) ∧
  (offset + items ≤ capacity_ b →
   buf_ (this s') = buf_ b ∧ calls (world s') = calls w).
Proof.
  intros Ho Hi [Hc0 Hc] Hfit Hfitg Hsrc Hrun. unfold run in Hrun.
  assert (u64 (offset + items)) as Hu
    by (apply fits_u64; [destruct Ho, Hi; lia | done]).
  assert (Z.pos sizeofT * items < two64) as Hfiti by (destruct Ho, Hi; nia).
  apply extendAppend_Ok in Hrun as (s1 & Hres & Hua). simpl in Hres.
  rewrite (wrap64_small _ Hu) in Hres.
  pose proof (growth_policy_gt (offset + items) ltac:(destruct Hu; lia)) as Hgt.
  destruct (decide (capacity_ b < offset + items)) as [Hgrow|Hstay].
  - specialize (Hfitg Hgrow).
    assert (growth_policy (offset + items) < two64) by nia.
    rewrite growth_policy_wrap in Hres by (destruct Hu; lia).
    destruct Hres as [[_ Hr]|[? _]]; [|lia].
    destruct (reserve_then_copy (growth_policy (offset + items)) offset src
                items w b s1 s') as (Hsz & Hcp & Hcopy & Hkeep & _);
      try done; [apply Hu|].
    unfold size, capacity. rewrite Hsz, Hcp.
    split; [done|]. split; [lia|]. split; [lia|]. split; [done|].
    split; [done|]. intros ?. lia.
  - destruct Hres as [[? _]|[_ ->]]; [lia|].
    destruct (unsafeAppend_post _ _ _ _ _ Ho Hi (proj2 Hu) Hfiti Hua)
      as (Hthis & Hcalls & Hcopy & Hout & _).
    simpl in *. unfold size, capacity. rewrite Hthis. simpl.
    split; [done|]. split; [lia|]. split; [done|].
    split; [|split; [|done]].
    + intros k x Hk Hx. rewrite (element_buf _ _ b) by done. by apply Hcopy.
    + intros i x Hi' Hnot Hx. rewrite (element_buf _ _ b) by done.
      by rewrite Hout.
Qed.

(** *** [resize] down and up again *)

(** X19. For 64-bit [k <= n] with [k <= length <= capacity] and [sizeof(T) *
    n] below [2^64]: shrinking with [resize(k)] and growing again with
    [resize(n)], when both return, does not bring the old elements back --
    the length is [n], [at(i)] reads zero for every [i] in [k, n), the
    elements below [k] are as they were --, and when [n] is within the
    capacity the pool is not called and the data does not move. *)
Theorem resize_down_up k n w b s1 s2 :
  u64 k → u64 n → k ≤ size_ b → k ≤ n →
  Z.pos sizeofT * n < two64 → 0 ≤ size_ b ≤ capacity_ b →
  run (resize k) w b = Ok (tt, s1) →
  run (resize n) (world s1) (this s1) = Ok (tt, s2) →
  size (this s2) = n ∧
  (∀ i, k ≤ i < n → at_ i s2 = Ok (Some zero, s2)) ∧
  (∀ i x, 0 ≤ i < k → element w b i = Some x →
          element (world s2) (this s2) i = Some x) ∧
  (n ≤ capacity_ b → calls (world s2) = calls w ∧ buf_ (this s2) = buf_ b).
Proof.
  intros Hk Hn Hks Hkn Hfit Hinv Hrun1 Hrun2. unfold size.
  assert (Z.pos sizeofT * k < two64) as Hfitk by (destruct Hk; nia).
  destruct (resize_post k w b s1 Hk Hfitk Hinv Hrun1)
    as (Hcap1 & Hsize1 & _ & Hkeep1 & Hsame1).
  destruct (Hsame1 Hks) as (Hc1 & Hb1 & Hw1).
  assert (0 ≤ size_ (this s1) ≤ capacity_ (this s1)) as Hinv1
    by (destruct Hk; lia).
  destruct (resize_post n (world s1) (this s1) s2 Hn Hfit Hinv1 Hrun2)
    as (Hcap2 & Hsize2 & Hzero2 & Hkeep2 & _).
  rewrite Hsize1 in *.
  split; [done|]. split; [|split].
  - intros i Hi. apply at_element; [by apply Hzero2 | lia].
  - intros i x Hi Hx. apply Hkeep2; [lia | lia |].
    apply Hkeep1; [lia | lia | done].
  - intros Hle. unfold run in Hrun2.
    apply resize_Ok in Hrun2 as (s & Hres & Hrest).
    apply reserve_Ok in Hres as [(_ & _ & ->)|(? & _)]; [|simpl in *; lia].
    rewrite <- Hw1, <- Hb1.
    destruct Hrest as [(_ & w2 & Hset & ->)|(_ & ->)]; simpl.
    + apply memset0_calls in Hset. by rewrite Hset.
    + done.
Qed.

End FurtherProperties.

(** ** The further properties at concrete buffers *)

Section FurtherExamples.

Local Existing Instances int32 granting.

Local Ltac returns := eexists; vm_compute; reflexivity.

(** [DataBuffer<int32_t> b(pool, 3)] in an empty memory: three elements,
    all of them 0. *)
Lemma construct_spec_witness :
  ∃ b w', construct the_pool 3 nothing = Ok (b, w') ∧
          size b = 3 ∧ capacity b = 3 ∧
          run (at_ 2) w' b = Ok (Some 0, mkState w' b).
Proof.
  assert (u64 3) as U3 by (unfold u64, two64; lia).
  assert (Z.pos sizeofT * 3 < two64) as Hfit by (vm_compute; reflexivity).
  assert (the_pool ≠ 0) as Hpool by (unfold the_pool; lia).
  destruct (construct_spec the_pool 3 nothing U3 Hfit Hpool)
    as (Hpost & _ & Hreturns).
  destruct Hreturns as (b & w' & Hrun); [right; apply granting_grants|].
  exists b, w'. split; [exact Hrun|].
  destruct (Hpost b w' Hrun) as (_ & _ & Hsize & Hcap & Hzero & _).
  split; [exact Hsize|]. split; [exact Hcap|]. apply Hzero. lia.
Defined.

(** Construction and destruction of a buffer of three elements: the memory
    is as before, the pool has seen the allocation and its [free]. *)
Lemma construct_destroy_witness :
  ∃ w'', destroy three_buffer three_memory = Ok w'' ∧
         mem w'' = mem nothing ∧
         calls w'' = [Free the_pool 1 12; AllocateZeroFilled the_pool 1 12 1].
Proof.
  exact (construct_destroy the_pool 3 nothing three_buffer three_memory eq_refl).
Defined.

Lemma clear_releases_witness :
  calls cleared_memory = Free the_pool 1 12 :: calls three_memory ∧
  mem cleared_memory !! 1 = None ∧
  element cleared_memory three_buffer 0 = None.
Proof.
  destruct (clear_releases three_memory three_buffer
              (mkState cleared_memory cleared_buffer))
    as (_ & Hcalls & Hgone & _ & Hdead);
    [reflexivity | simpl; lia | reflexivity |].
  split; [exact Hcalls|]. split; [exact Hgone|]. apply (Hdead 0).
Defined.

(** End-to-end scenario 6: the view of the external buffer 7, 8, 9. *)
Lemma wrap_view_witness :
  ∃ b, wrap (Some buffer_789) = Ok b ∧ aliasing b ∧ size b = capacity b ∧
       ∃ c, [Some 7; Some 8; Some 9] !! Z.to_nat 2 = Some c ∧
            run (at_ 2) external_789 b = Ok (c, mkState external_789 b).
Proof.
  destruct (wrap_view buffer_789 external_789 [Some 7; Some 8; Some 9])
    as (_ & b & Hwrap & Halias & _ & _ & Hsize & Hbytes & Hat);
    [simpl; lia | simpl; lia | reflexivity | vm_compute; lia |].
  exists b. split; [exact Hwrap|]. split; [exact Halias|].
  split; [exact Hsize|]. apply Hat.
  simpl in Hbytes. lia.
Defined.

Lemma clear_aliasing_witness :
  destroy view_789 external_789 = Ok external_789 ∧
  run (reserve 4) external_789 (set_buf_ 0 (set_capacity_ 0 (set_size_ 0 view_789)))
  = Fatal ReferencedBuffer.
Proof.
  assert (aliasing view_789) as Halias by (unfold aliasing; simpl; congruence).
  destruct (clear_aliasing external_789 view_789 Halias)
    as (_ & Hdestroy & _ & Hreserve & _).
  split; [exact Hdestroy|]. apply Hreserve. lia.
Defined.

Lemma capacity_never_shrinks_witness :
  ∃ s', run (call_all [OpResize 10; @OpSafeSet int32 100 42; @OpAppendValue int32 5])
          empty_memory empty_buffer = Ok (tt, s') ∧
        capacity empty_buffer ≤ capacity (this s').
Proof.
  assert (∃ s', run (call_all [OpResize 10; @OpSafeSet int32 100 42;
                               @OpAppendValue int32 5])
                  empty_memory empty_buffer = Ok (tt, s')) as [s' Hrun]
    by returns.
  exists s'. split; [exact Hrun|].
  assert (Forall keeps_storage [OpResize 10; @OpSafeSet int32 100 42;
                                @OpAppendValue int32 5]) as Hkeep
    by (do 3 (constructor; [exact I|]); constructor).
  exact (capacity_never_shrinks
           [OpResize 10; @OpSafeSet int32 100 42; @OpAppendValue int32 5]
           empty_memory empty_buffer s' Hkeep Hrun).
Defined.

Lemma mode_for_life_witness :
  ∃ s', run (call_all [@OpAppendValue int32 1; OpClear; OpResize 2])
          three_memory three_buffer = Ok (tt, s') ∧
        pool_ (this s') = the_pool ∧ owning (this s').
Proof.
  assert (∃ s', run (call_all [@OpAppendValue int32 1; OpClear; OpResize 2])
                  three_memory three_buffer = Ok (tt, s')) as [s' Hrun]
    by returns.
  exists s'. split; [exact Hrun|].
  destruct (mode_for_life [@OpAppendValue int32 1; OpClear; OpResize 2]
              three_memory three_buffer s' Hrun) as (Hpool & _ & Hown & _).
  split; [exact Hpool|]. by apply Hown.
Defined.

Lemma pool_calls_bounded_witness :
  ∃ s' new, run (call_all [@OpAppendValue int32 1; OpClear; OpResize 2])
              three_memory three_buffer = Ok (tt, s') ∧
            calls (world s') = new ++ calls three_memory ∧
            (length new ≤ 3)%nat.
Proof.
  assert (∃ s', run (call_all [@OpAppendValue int32 1; OpClear; OpResize 2])
                  three_memory three_buffer = Ok (tt, s')) as [s' Hrun]
    by returns.
  destruct (pool_calls_bounded [@OpAppendValue int32 1; OpClear; OpResize 2]
              three_memory three_buffer s' Hrun) as (new & Hcalls & Hlen).
  exists s', new. split; [exact Hrun|]. split; [exact Hcalls | exact Hlen].
Defined.

Lemma reserve_growth_witness :
  ∃ s', run (reserve 5) three_memory three_buffer = Ok (tt, s') ∧
        capacity (this s') = 5 ∧ size (this s') = 3 ∧
        element (world s') (this s') 2 = Some (Some 0) ∧
        element (world s') (this s') 4 = Some None.
Proof.
  assert (∃ s', run (reserve 5) three_memory three_buffer = Ok (tt, s'))
    as [s' Hrun] by returns.
  exists s'. split; [exact Hrun|].
  destruct (reserve_growth 5 three_memory three_buffer s')
    as (_ & Hcap & Hsize & _ & Hkeep & Hnew & _);
    [simpl; lia | vm_compute; reflexivity | exact Hrun |].
  split; [exact Hcap|]. split; [exact Hsize|]. split.
  - apply Hkeep; [simpl; lia | reflexivity].
  - apply Hnew. simpl. lia.
Defined.

Lemma append_value_push_witness :
  ∃ s', run (append_value 5) three_memory three_buffer = Ok (tt, s') ∧
        size (this s') = 4 ∧ at_ 3 s' = Ok (Some 5, s') ∧
        at_ 0 s' = Ok (Some 0, s').
Proof.
  assert (∃ s', run (append_value 5) three_memory three_buffer = Ok (tt, s'))
    as [s' Hrun] by returns.
  exists s'. split; [exact Hrun|].
  destruct (@append_value_push int32 granting 5 three_memory three_buffer s')
    as (Hsize & _ & Hlast & Hkeep & _);
    [simpl; lia | unfold u64, two64; simpl; lia
    | intros _; vm_compute; reflexivity | exact Hrun |].
  split; [exact Hsize|]. split; [exact Hlast|].
  apply Hkeep; [simpl; lia | reflexivity].
Defined.

Lemma append_values_spec_witness :
  ∃ s', run (append_values [7; 8; 9]) one_memory one_buffer = Ok (tt, s') ∧
        size (this s') = 4 ∧
        element (world s') (this s') 0 = Some (Some 0) ∧
        element (world s') (this s') 3 = Some (Some 9).
Proof.
  assert (∃ s', run (append_values [7; 8; 9]) one_memory one_buffer
                = Ok (tt, s')) as [s' Hrun] by returns.
  exists s'. split; [exact Hrun|].
  destruct (@append_values_spec int32 granting [7; 8; 9] one_memory one_buffer s')
    as (Hsize & _ & Hnew & Hkeep);
    [simpl; lia | unfold u64, two64; simpl; lia | vm_compute; reflexivity
    | exact Hrun |].
  split; [exact Hsize|]. split.
  - apply Hkeep; [simpl; lia | reflexivity].
  - apply (Hnew 2%nat 9). reflexivity.
Defined.

Lemma safeSet_frame_witness :
  ∃ s', run (safeSet 5 42) three_memory three_buffer = Ok (tt, s') ∧
        element (world s') (this s') 1 = Some (Some 0) ∧
        element (world s') (this s') 4 = Some None.
Proof.
  assert (∃ s', run (safeSet 5 42) three_memory three_buffer = Ok (tt, s'))
    as [s' Hrun] by returns.
  assert (capacity (this s') = 6) as Hcap
    by (vm_compute in Hrun; by injection Hrun as <-).
  exists s'. split; [exact Hrun|].
  destruct (@safeSet_frame int32 granting 5 42 three_memory three_buffer s')
    as (Hkeep & Hnew & _);
    [unfold u64, two64; lia | unfold u64, two64; simpl; lia
    | intros _; vm_compute; reflexivity | exact Hrun |].
  split.
  - apply Hkeep; [simpl; lia | lia | reflexivity].
  - apply Hnew; [rewrite Hcap; simpl; lia | lia].
Defined.

Lemma subscript_set_spec_witness :
  ∃ s', run (subscript_set 1 42) three_memory three_buffer = Ok (tt, s') ∧
        this s' = three_buffer ∧
        subscript 1 s' = Ok (Some 42, s') ∧
        element (world s') three_buffer 2 = Some (Some 0).
Proof.
  assert (∃ s', run (subscript_set 1 42) three_memory three_buffer
                = Ok (tt, s')) as [s' Hrun] by returns.
  exists s'. split; [exact Hrun|].
  destruct (@subscript_set_spec int32 1 42 three_memory three_buffer
              s' Hrun) as (Hthis & _ & Hread & Hframe & _).
  split; [exact Hthis|]. split; [exact Hread|].
  rewrite Hframe by lia. reflexivity.
Defined.

Lemma safeSet_in_place_witness :
  run (safeSet 1 42) three_memory three_buffer
  = run (subscript_set 1 42) three_memory three_buffer.
Proof.
  apply (@safeSet_in_place int32 granting 1 42 three_memory three_buffer);
    simpl; lia.
Defined.

(** [unsafeAppend(0, src, 2)] with [src] at the values 7, 8, 9. *)
Lemma unsafeAppend_spec_witness :
  (∃ s', run (unsafeAppend 0 (mkPtr 50 0) 2) two_memory two_buffer = Ok (tt, s') ∧
         size (this s') = 2 ∧
         element (world s') (this s') 1 = Some (Some 8)) ∧
  run (unsafeAppend_end (mkPtr 50 0) 1) two_memory two_buffer
  = run (unsafeAppend 2 (mkPtr 50 0) 1) two_memory two_buffer.
Proof.
  assert (u64 0 ∧ u64 1 ∧ u64 2) as (U0 & U1 & U2) by (unfold u64, two64; lia).
  split.
  - assert (∃ s', run (unsafeAppend 0 (mkPtr 50 0) 2) two_memory two_buffer
                  = Ok (tt, s')) as [s' Hrun] by returns.
    exists s'. split; [exact Hrun|].
    destruct (unsafeAppend_spec 0 (mkPtr 50 0) 2 two_memory two_buffer U0 U2)
      as [Hpost _]; [vm_compute; reflexivity | vm_compute; reflexivity |].
    destruct (Hpost s' Hrun) as (Hsize & _ & _ & _ & Hcopy & _).
    split; [exact Hsize|]. apply (Hcopy 1); [lia | reflexivity].
  - destruct (unsafeAppend_spec 2 (mkPtr 50 0) 1 two_memory two_buffer U2 U1)
      as [_ Hsame]; [vm_compute; reflexivity | vm_compute; reflexivity |].
    apply Hsame. reflexivity.
Defined.

(** [append(2, src, 3)] with [src] at the values 7, 8, 9, into a buffer of
    two elements: an exact fit. *)
Lemma append_ptr_spec_witness :
  ∃ s', run (append_ptr 2 (mkPtr 50 0) 3) two_memory two_buffer = Ok (tt, s') ∧
        size (this s') = 5 ∧ capacity (this s') = 5 ∧
        element (world s') (this s') 4 = Some (Some 9) ∧
        element (world s') (this s') 1 = Some (Some 0).
Proof.
  assert (u64 2 ∧ u64 3) as (U2 & U3) by (unfold u64, two64; lia).
  assert (∃ s', run (append_ptr 2 (mkPtr 50 0) 3) two_memory two_buffer
                = Ok (tt, s')) as [s' Hrun] by returns.
  exists s'. split; [exact Hrun|].
  destruct (append_ptr_spec 2 (mkPtr 50 0) 3 two_memory two_buffer s' U2 U3)
    as (Hsize & Hcap & Hcopy & Hkeep & _);
    [vm_compute; reflexivity | simpl; lia | simpl; lia | exact Hrun |].
  split; [exact Hsize|]. split; [exact Hcap|]. split.
  - apply (Hcopy 2); [lia | reflexivity].
  - apply Hkeep; [simpl; lia | lia | reflexivity].
Defined.

(** [extendAppend(2, src, 3)] on the same buffer: the same elements, with
    headroom. *)
Lemma extendAppend_spec_witness :
  ∃ s', run (extendAppend 2 (mkPtr 50 0) 3) two_memory two_buffer = Ok (tt, s') ∧
        size (this s') = 5 ∧ capacity (this s') = 9 ∧
        element (world s') (this s') 4 = Some (Some 9) ∧
        element (world s') (this s') 1 = Some (Some 0).
Proof.
  assert (u64 2 ∧ u64 3) as (U2 & U3) by (unfold u64, two64; lia).
  assert (∃ s', run (extendAppend 2 (mkPtr 50 0) 3) two_memory two_buffer
                = Ok (tt, s')) as [s' Hrun] by returns.
  exists s'. split; [exact Hrun|].
  destruct (extendAppend_spec 2 (mkPtr 50 0) 3 two_memory two_buffer s' U2 U3)
    as (Hsize & _ & Hcap & Hcopy & Hkeep & _);
    [unfold u64, two64; simpl; lia | vm_compute; reflexivity
    | intros _; vm_compute; reflexivity | simpl; lia | exact Hrun |].
  split; [exact Hsize|]. split; [exact Hcap|]. split.
  - apply (Hcopy 2); [lia | reflexivity].
  - apply Hkeep; [simpl; lia | lia | reflexivity].
Defined.

(** [resize(1)] and [resize(3)] on the view of 7, 8, 9: the elements 1 and
    2 come back as 0, not as 8 and 9. *)
Lemma resize_down_up_witness :
  ∃ s1 s2, run (resize 1) external_789 view_789 = Ok (tt, s1) ∧
           run (resize 3) (world s1) (this s1) = Ok (tt, s2) ∧
           size (this s2) = 3 ∧
           at_ 0 s2 = Ok (Some 7, s2) ∧
           at_ 1 s2 = Ok (Some 0, s2) ∧ at_ 2 s2 = Ok (Some 0, s2) ∧
           calls (world s2) = calls external_789.
Proof.
  assert (u64 1 ∧ u64 3) as (U1 & U3) by (unfold u64, two64; lia).
  assert (∃ s1, run (resize 1) external_789 view_789 = Ok (tt, s1) ∧
          ∃ s2, run (resize 3) (world s1) (this s1) = Ok (tt, s2))
    as (s1 & Hrun1 & s2 & Hrun2)
    by (eexists; split; [vm_compute; reflexivity | returns]).
  exists s1, s2. split; [exact Hrun1|]. split; [exact Hrun2|].
  destruct (resize_down_up 1 3 external_789 view_789 s1 s2 U1 U3)
    as (Hsize & Hzero & Hkeep & Hsame);
    [simpl; lia | lia | vm_compute; reflexivity | simpl; lia
    | exact Hrun1 | exact Hrun2 |].
  destruct Hsame as [Hcalls _]; [simpl; lia|].
  split; [exact Hsize|]. split; [|split; [|split]].
  - apply (@at_element int32 0 s2 (Some 7)); [|unfold size in Hsize; lia].
    apply Hkeep; [lia | reflexivity].
  - apply Hzero. lia.
  - apply Hzero. lia.
  - exact Hcalls.
Defined.

End FurtherExamples.
